(** * A fixed-capacity memory pool (pool.c): heap-level model

    The pool keeps two doubly linked lists of [struct llnode], the active
    and the available list.  The lists are modelled as the C code has them:
    nodes live in a heap indexed by pointers, every node carries its own
    [prev] and [next] pointers, and the functions below read and write
    those fields in the order of the source.  Nothing is abstracted to a
    mathematical list, because several properties of the pool depend on
    what a stale [prev] pointer does. *)

From Stdlib Require Import ZArith List Lia.
From Stdlib.Strings Require Import Byte.
From stdpp Require Import gmap list.

Open Scope Z_scope.

(** ** Data *)

(** A pointer to a [struct llnode]; [option ptr] is a nullable pointer. *)
Abbreviation ptr := nat (only parsing).

(** [struct llnode].  [start] is a [char *] into the buffer of the pool; it
    is kept as the byte offset from [p->h], so that [p->h] itself is offset
    0 (this is the index that [pool_print_active] prints). *)
Record llnode := Node {
  s : Z;
  start : Z;
  prev : option ptr;
  next : option ptr
}.

(** [struct pool].  [h] holds the contents of the buffer; its length is the
    capacity given to [pool_create]. *)
Record pool := Pool {
  h : list byte;
  active : option ptr;
  available : option ptr
}.

(** The C heap as far as the pool uses it: the pool (absent before
    [pool_create] and after a successful [pool_destroy]), the live list
    nodes, and the next pointer [malloc] hands out.  Pointers are never
    reused, so a pointer to a freed node stays recognisably dangling. *)
Record mem := Mem {
  pl : option pool;
  heap : gmap nat llnode;
  brk : nat
}.

Definition boot : mem := {| pl := None; heap := ∅; brk := O |}.

(** ** Outcomes *)

Inductive fault :=
| AssertionFailed   (* an [assert] of the source does not hold *)
| InvalidPointer    (* a node or pool that is not live is read, written or freed *)
| IntOverflow       (* signed [int] arithmetic leaves the 32-bit range *)
| OutOfBounds       (* the buffer is accessed outside [0, capacity) *)
| NoTermination.    (* a list walk revisits a node: the C loop never ends *)

Inductive res (A : Type) :=
| Ok (a : A)
| Err (f : fault).
Arguments Ok {A} a.
Arguments Err {A} f.

(** Computations over the heap that can fault. *)
Definition M (A : Type) : Type := mem -> res (A * mem).

Definition ret {A} (a : A) : M A := fun m => Ok (a, m).

Definition bind {A B} (c : M A) (k : A -> M B) : M B :=
  fun m => match c m with
           | Ok (a, m') => k a m'
           | Err f => Err f
           end.

Definition throw {A} (f : fault) : M A := fun _ => Err f.

Declare Scope pool_scope.
Delimit Scope pool_scope with pool.
Notation "x <- c ;; k" := (bind c (fun x => k))
  (at level 100, c at next level, k at level 200, right associativity)
  : pool_scope.
Notation "c ;; k" := (bind c (fun _ => k))
  (at level 100, k at level 200, right associativity) : pool_scope.
Open Scope pool_scope.

(** ** Primitive memory operations *)

Definition assert (b : bool) : M unit :=
  if b then ret tt else throw AssertionFailed.

(** Reading [*p]. *)
Definition get_pool : M pool :=
  fun m => match pl m with
           | Some p => Ok (p, m)
           | None => Err InvalidPointer
           end.

Definition set_active (v : option ptr) : M unit :=
  fun m => match pl m with
           | Some p =>
               Ok (tt, {| pl := Some {| h := h p; active := v;
                                        available := available p |};
                          heap := heap m; brk := brk m |})
           | None => Err InvalidPointer
           end.

Definition set_available (v : option ptr) : M unit :=
  fun m => match pl m with
           | Some p =>
               Ok (tt, {| pl := Some {| h := h p; active := active p;
                                        available := v |};
                          heap := heap m; brk := brk m |})
           | None => Err InvalidPointer
           end.

(** Reading the node behind a pointer. *)
Definition load (n : ptr) : M llnode :=
  fun m => match heap m !! n with
           | Some nd => Ok (nd, m)
           | None => Err InvalidPointer
           end.

Definition store (n : ptr) (nd : llnode) : M unit :=
  fun m => match heap m !! n with
           | Some _ => Ok (tt, {| pl := pl m; heap := <[n := nd]> (heap m);
                                  brk := brk m |})
           | None => Err InvalidPointer
           end.

(** [n->s = v], [n->prev = v], [n->next = v]. *)
Definition set_s (n : ptr) (v : Z) : M unit :=
  nd <- load n ;;
  store n {| s := v; start := start nd; prev := prev nd; next := next nd |}.

Definition set_prev (n : ptr) (v : option ptr) : M unit :=
  nd <- load n ;;
  store n {| s := s nd; start := start nd; prev := v; next := next nd |}.

Definition set_next (n : ptr) (v : option ptr) : M unit :=
  nd <- load n ;;
  store n {| s := s nd; start := start nd; prev := prev nd; next := v |}.

Definition malloc (nd : llnode) : M ptr :=
  fun m => Ok (brk m, {| pl := pl m; heap := <[brk m := nd]> (heap m);
                         brk := S (brk m) |}).

Definition free (n : ptr) : M unit :=
  fun m => match heap m !! n with
           | Some _ => Ok (tt, {| pl := pl m; heap := delete n (heap m);
                                  brk := brk m |})
           | None => Err InvalidPointer
           end.

(** [int] is 32 bits wide; signed overflow is undefined in C. *)
Definition INT_MAX : Z := 2147483647.
Definition INT_MIN : Z := -2147483648.

Definition int_of (z : Z) : M Z :=
  if (INT_MIN <=? z) && (z <=? INT_MAX) then ret z else throw IntOverflow.

(** Bytes of the buffer, [p->h[o]]. *)
Definition buf_read (o : Z) : M byte :=
  p <- get_pool ;;
  if o <? 0 then throw OutOfBounds
  else match h p !! Z.to_nat o with
       | Some b => ret b
       | None => throw OutOfBounds
       end.

Definition buf_write (o : Z) (b : byte) : M unit :=
  fun m => match pl m with
           | Some p =>
               if (0 <=? o) && (o <? Z.of_nat (length (h p))) then
                 Ok (tt, {| pl := Some {| h := <[Z.to_nat o := b]> (h p);
                                          active := active p;
                                          available := available p |};
                            heap := heap m; brk := brk m |})
               else Err OutOfBounds
           | None => Err InvalidPointer
           end.

(** Every [while] loop of the source walks a list through [next] without
    writing to it.  A walk over more nodes than are live has come back to
    a node it has seen, and the C loop would go round for ever; the loops
    below therefore get one more step than there are live nodes. *)
Definition steps : M nat := fun m => Ok (S (size (heap m)), m).

(** ** The functions of pool.c *)

(** [create_node(size, begin)].  [assert(begin)] holds for every offset
    into the buffer, since [p->h] is not null. *)
Definition create_node (size : Z) (begin : Z) : M ptr :=
  assert (0 <? size) ;;
  malloc {| s := size; start := begin; prev := None; next := None |}.

(** [pool_create(size)].  The buffer comes from [malloc]; its bytes are set
    to zero here and a caller overwrites them with [poke]. *)
Definition pool_create (size : Z) : M unit :=
  assert (0 <? size) ;;
  node <- create_node size 0 ;;
  fun m => Ok (tt, {| pl := Some {| h := replicate (Z.to_nat size) x00;
                                    active := None;
                                    available := Some node |};
                      heap := heap m; brk := brk m |}).

(** [free(q)] for a nullable [q]: [free(NULL)] does nothing. *)
Definition free_opt (q : option ptr) : M unit :=
  match q with
  | Some n => free n
  | None => ret tt
  end.

(** [pool_destroy(p)].  On success the pool and its buffer are gone; the
    nodes still in [heap] afterwards were never freed. *)
Definition pool_destroy : M bool :=
  p <- get_pool ;;
  match active p with
  | Some _ => ret false
  | None =>
      free_opt (available p) ;;
      (fun m => Ok (true, {| pl := None; heap := heap m; brk := brk m |}))
  end.

(** The walk of [add_active]:
    [while (curr_node->start < node->start && curr_node->next)]. *)
Fixpoint add_active_walk (fuel : nat) (node curr_node : ptr) : M ptr :=
  match fuel with
  | O => throw NoTermination
  | S fuel' =>
      cn <- load curr_node ;;
      nd <- load node ;;
      if start cn <? start nd then
        match next cn with
        | Some next_node => add_active_walk fuel' node next_node
        | None => ret curr_node
        end
      else ret curr_node
  end.

(** [add_active(node, p)]. *)
Definition add_active (node : ptr) : M unit :=
  p <- get_pool ;;
  match active p with
  | Some first =>
      fuel <- steps ;;
      curr_node <- add_active_walk fuel node first ;;
      cn <- load curr_node ;;
      let pre_node := prev cn in
      nd <- load node ;;
      if start cn >? start nd then
        match pre_node with
        | None => set_active (Some node)
        | Some pre => set_next pre (Some node)
        end ;;
        set_prev node pre_node ;;
        set_next node (Some curr_node) ;;
        set_prev curr_node (Some node)
      else
        set_next curr_node (Some node) ;;
        set_prev node (Some curr_node) ;;
        set_next node None
  | None =>
      set_prev node None ;;
      set_next node None ;;
      set_active (Some node)
  end.

(** [same_size_available(node, p)]. *)
Definition same_size_available (node : ptr) : M unit :=
  nd <- load node ;;
  match prev nd, next nd with
  | None, None => set_available None
  | Some pre_node, None => set_next pre_node None
  | None, Some next_node =>
      set_prev next_node None ;;
      set_available (Some next_node)
  | Some pre_node, Some next_node =>
      set_next pre_node (Some next_node) ;;
      set_prev next_node (Some pre_node)
  end.

(** [more_size_available(node, p, size)]. *)
Definition more_size_available (node : ptr) (size : Z) : M unit :=
  assert (0 <? size) ;;
  nd <- load node ;;
  let node_size := s nd in
  let next_node := next nd in
  let pre_node := prev nd in
  let new_start := start nd + size in
  rest <- int_of (node_size - size) ;;
  new_node <- create_node rest new_start ;;
  match pre_node with
  | None =>
      set_available (Some new_node) ;;
      set_prev new_node None
  | Some pre =>
      set_next pre (Some new_node) ;;
      set_prev new_node (Some pre)
  end ;;
  match next_node with
  | None => set_next new_node None
  | Some nx =>
      set_next new_node (Some nx) ;;
      set_prev nx (Some new_node)
  end ;;
  set_s node size.

(** The loop of [pool_alloc], from [while (node)] on. *)
Fixpoint pool_alloc_walk (fuel : nat) (size : Z) (node : option ptr)
  : M (option Z) :=
  match node with
  | None => ret None
  | Some n =>
      match fuel with
      | O => throw NoTermination
      | S fuel' =>
          nd <- load n ;;
          let node_size := s nd in
          let next_node := next nd in
          if node_size <? size then pool_alloc_walk fuel' size next_node
          else
            (if node_size =? size then same_size_available n
             else if node_size >? size then more_size_available n size
             else ret tt) ;;
            add_active n ;;
            nd' <- load n ;;
            ret (Some (start nd'))
      end
  end.

(** [pool_alloc(p, size)]; [None] is the null pointer. *)
Definition pool_alloc (size : Z) : M (option Z) :=
  assert (0 <? size) ;;
  p <- get_pool ;;
  match available p with
  | Some first =>
      fuel <- steps ;;
      pool_alloc_walk fuel size (Some first)
  | None => ret None
  end.

(** The [while(1)] walk of [add_available]. *)
Fixpoint add_available_walk (fuel : nat) (node curr_node : ptr) : M ptr :=
  match fuel with
  | O => throw NoTermination
  | S fuel' =>
      cn <- load curr_node ;;
      let next_node := next cn in
      nd <- load node ;;
      if start cn >? start nd then ret curr_node
      else match next_node with
           | None => ret curr_node
           | Some nx => add_available_walk fuel' node nx
           end
  end.

(** [add_available(node, p)].  Fields are read again at every use, as in
    the source, so that the model is right also when two of the pointers
    at hand are the same node. *)
Definition add_available (node : ptr) : M unit :=
  p <- get_pool ;;
  match available p with
  | Some first =>
      fuel <- steps ;;
      found <- add_available_walk fuel node first ;;
      cn <- load found ;;
      nd <- load node ;;
      let '(pre_node, curr_node) :=
        if start cn >? start nd then (prev cn, Some found)
        else (Some found, None) in
      new_prev <-
        match pre_node with
        | None =>
            set_available (Some node) ;;
            ret node
        | Some pre =>
            pn <- load pre ;;
            nd1 <- load node ;;
            if start pn + s pn =? start nd1 then
              total <- int_of (s pn + s nd1) ;;
              set_s pre total ;;
              free node ;;
              ret pre
            else
              set_next pre (Some node) ;;
              set_prev node (Some pre) ;;
              ret node
        end ;;
      match curr_node with
      | None => set_next new_prev None
      | Some curr =>
          np <- load new_prev ;;
          cn1 <- load curr ;;
          if start np + s np =? start cn1 then
            total <- int_of (s np + s cn1) ;;
            set_s new_prev total ;;
            cn2 <- load curr ;;
            set_next new_prev (next cn2) ;;
            cn3 <- load curr ;;
            match next cn3 with
            | Some nx => set_prev nx (Some new_prev)
            | None => ret tt
            end ;;
            free curr
          else
            set_next new_prev (Some curr) ;;
            set_prev curr (Some new_prev)
      end
  | None =>
      set_next node None ;;
      set_prev node None ;;
      set_available (Some node)
  end.

(** The loop of [pool_free]. *)
Fixpoint pool_free_walk (fuel : nat) (addr : Z) (node : option ptr) : M bool :=
  match node with
  | None => ret false
  | Some n =>
      match fuel with
      | O => throw NoTermination
      | S fuel' =>
          nd <- load n ;;
          if start nd =? addr then
            match prev nd, next nd with
            | None, None => set_active None
            | Some pre_node, None => set_next pre_node None
            | None, Some next_node =>
                set_active (Some next_node) ;;
                set_prev next_node None
            | Some pre_node, Some next_node =>
                set_next pre_node (Some next_node) ;;
                set_prev next_node (Some pre_node)
            end ;;
            add_available n ;;
            ret true
          else pool_free_walk fuel' addr (next nd)
      end
  end.

(** [pool_free(p, addr)]. *)
Definition pool_free (addr : Z) : M bool :=
  p <- get_pool ;;
  fuel <- steps ;;
  pool_free_walk fuel addr (active p).

(** The loop of [find_active]. *)
Fixpoint find_active_walk (fuel : nat) (addr : Z) (node : option ptr)
  : M (option ptr) :=
  match node with
  | None => ret None
  | Some n =>
      match fuel with
      | O => throw NoTermination
      | S fuel' =>
          nd <- load n ;;
          if start nd =? addr then ret (Some n)
          else find_active_walk fuel' addr (next nd)
      end
  end.

(** [find_active(addr, p)]. *)
Definition find_active (addr : Z) : M (option ptr) :=
  p <- get_pool ;;
  fuel <- steps ;;
  find_active_walk fuel addr (active p).

(** The loop of [find_available]:
    [while (node && node->start <= addr)]. *)
Fixpoint find_available_walk (fuel : nat) (addr size : Z) (node : option ptr)
  : M (option ptr) :=
  match node with
  | None => ret None
  | Some n =>
      match fuel with
      | O => throw NoTermination
      | S fuel' =>
          nd <- load n ;;
          if start nd <=? addr then
            if start nd =? addr then
              if s nd <? size then ret None
              else
                (if s nd =? size then same_size_available n
                 else more_size_available n size) ;;
                ret (Some n)
            else find_available_walk fuel' addr size (next nd)
          else ret None
      end
  end.

(** [find_available(addr, size, p)]. *)
Definition find_available (addr size : Z) : M (option ptr) :=
  assert (0 <? size) ;;
  p <- get_pool ;;
  fuel <- steps ;;
  find_available_walk fuel addr size (available p).

(** The copy loop of [pool_realloc]:
    [for (int i = 0; i < node->s; ++i) my_start[i] = node->start[i]]. *)
Fixpoint copy_walk (fuel : nat) (node : ptr) (my_start i : Z) : M unit :=
  match fuel with
  | O => throw NoTermination
  | S fuel' =>
      nd <- load node ;;
      if i <? s nd then
        b <- buf_read (start nd + i) ;;
        buf_write (my_start + i) b ;;
        i' <- int_of (i + 1) ;;
        copy_walk fuel' node my_start i'
      else ret tt
  end.

(** [pool_realloc(p, addr, size)]; [None] is the null pointer. *)
Definition pool_realloc (addr size : Z) : M (option Z) :=
  assert (0 <? size) ;;
  found <- find_active addr ;;
  match found with
  | None => ret None
  | Some node =>
      nd <- load node ;;
      if s nd =? size then ret (Some (start nd))
      else if s nd >? size then
        rest <- int_of (s nd - size) ;;
        new_available <- create_node rest (start nd + size) ;;
        add_available new_available ;;
        set_s node size ;;
        nd' <- load node ;;
        ret (Some (start nd'))
      else
        let extra := addr + s nd in
        more <- int_of (size - s nd) ;;
        new_active <- find_available extra more ;;
        match new_active with
        | None =>
            my_start <- pool_alloc size ;;
            match my_start with
            | Some dst =>
                nd1 <- load node ;;
                copy_walk (S (Z.to_nat (s nd1))) node dst 0 ;;
                pool_free addr ;;
                ret (Some dst)
            | None => ret None
            end
        | Some grabbed =>
            free grabbed ;;
            set_s node size ;;
            nd' <- load node ;;
            ret (Some (start nd'))
        end
  end.

(** The walk of [pool_print_active] and [pool_print_available]: the
    pairs [idx [size]] they print, in list order. *)
Fixpoint print_walk (fuel : nat) (node : option ptr) : M (list (Z * Z)) :=
  match node with
  | None => ret []
  | Some n =>
      match fuel with
      | O => throw NoTermination
      | S fuel' =>
          nd <- load n ;;
          rest <- print_walk fuel' (next nd) ;;
          ret ((start nd, s nd) :: rest)
      end
  end.

Definition pool_print_active : M (list (Z * Z)) :=
  p <- get_pool ;;
  fuel <- steps ;;
  print_walk fuel (active p).

Definition pool_print_available : M (list (Z * Z)) :=
  p <- get_pool ;;
  fuel <- steps ;;
  print_walk fuel (available p).

(** ** Callers *)

(** A caller storing a byte through a pointer into the buffer. *)
Definition poke (addr : Z) (b : byte) : M unit := buf_write addr b.

(** One call of a client, after [pool_create]. *)
Inductive call :=
| Alloc (size : Z)
| Free (addr : Z)
| Realloc (addr size : Z)
| Poke (addr : Z) (b : byte).

Definition do_call (c : call) : M unit :=
  match c with
  | Alloc size => pool_alloc size ;; ret tt
  | Free addr => pool_free addr ;; ret tt
  | Realloc addr size => pool_realloc addr size ;; ret tt
  | Poke addr b => poke addr b
  end.

Fixpoint do_calls (cs : list call) : M unit :=
  match cs with
  | [] => ret tt
  | c :: cs' => do_call c ;; do_calls cs'
  end.

(** The state after [pool_create(size)] and the calls [cs], when none of
    them faults. *)
Definition session (size : Z) (cs : list call) : res (unit * mem) :=
  (pool_create size ;; do_calls cs) boot.

(** The states a client can bring a pool to. *)
Inductive reachable : mem -> Prop :=
| reach_create size m :
    pool_create size boot = Ok (tt, m) -> reachable m
| reach_call c m m' :
    reachable m -> do_call c m = Ok (tt, m') -> reachable m'.

(** ** Properties of a pool state *)

(** A block, as the listings show it: offset and length. *)
Definition covers (o : Z) (b : Z * Z) : bool :=
  (fst b <=? o) && (o <? fst b + snd b).

(** How many blocks of a listing hold the byte at offset [o]. *)
Definition owners (o : Z) (l : list (Z * Z)) : nat :=
  length (List.filter (covers o) l).

(** Both lists can be walked, and every byte of the buffer lies in
    exactly one block of exactly one of them. *)
Definition partitions (m : mem) : Prop :=
  exists p la lv,
    pl m = Some p /\
    pool_print_active m = Ok (la, m) /\
    pool_print_available m = Ok (lv, m) /\
    forall o, 0 <= o < Z.of_nat (length (h p)) ->
              owners o (la ++ lv) = 1%nat.

(** No block of the listing ends where another one begins. *)
Definition no_adjacent (l : list (Z * Z)) : Prop :=
  forall b1 b2, In b1 l -> In b2 l -> fst b1 + snd b1 <> fst b2.

Definition coalesced (m : mem) : Prop :=
  exists lv, pool_print_available m = Ok (lv, m) /\ no_adjacent lv.

(** The block that a lookup by exact offset finds in a listing. *)
Definition block_at (addr : Z) (l : list (Z * Z)) : option (Z * Z) :=
  List.find (fun b => fst b =? addr) l.

(** The block a first-fit scan of a listing for [size] bytes stops at. *)
Definition first_fit (size : Z) (l : list (Z * Z)) : option (Z * Z) :=
  List.find (fun b => size <=? snd b) l.

(** Node [n] is live and starts at offset [z]. *)
Definition start_is (n : ptr) (z : Z) (m : mem) : Prop :=
  exists nd, heap m !! n = Some nd /\ start nd = z.

(** Every live node has a positive size and sits at a pointer that
    [malloc] has handed out. *)
Definition heap_sound (m : mem) : Prop :=
  forall n nd, heap m !! n = Some nd -> 0 < s nd /\ (n < brk m)%nat.

(** ** Further properties of a pool state *)

(** Every live node sits at a pointer that [malloc] has handed out and
    describes a non-empty range inside a buffer of [cap] bytes. *)
Definition tidy (cap : Z) (m : mem) : Prop :=
  forall n nd, heap m !! n = Some nd ->
    (n < brk m)%nat /\ 0 <= start nd /\ 0 < s nd /\ start nd + s nd <= cap.

(** Pointer [n] has been handed out, and as long as its node is live the
    node starts at offset [z]. *)
Definition start_if (n : ptr) (z : Z) (m : mem) : Prop :=
  (n < brk m)%nat /\ forall nd, heap m !! n = Some nd -> start nd = z.

(** Node [n] is live and has size [v]. *)
Definition size_is (n : ptr) (v : Z) (m : mem) : Prop :=
  exists nd, heap m !! n = Some nd /\ s nd = v.

(** The number of bytes of the buffer, and its contents. *)
Definition capacity (m : mem) : option Z :=
  option_map (fun p => Z.of_nat (length (h p))) (pl m).

Definition buffer (m : mem) : option (list byte) := option_map h (pl m).

(** The pool is live and its buffer satisfies [P]. *)
Definition buffer_has (P : list byte -> Prop) (m : mem) : Prop :=
  exists p, pl m = Some p /\ P (h p).

(** A block of a listing lies inside a buffer of [cap] bytes. *)
Definition block_inside (cap : Z) (b : Z * Z) : Prop :=
  0 <= fst b /\ 0 < snd b /\ fst b + snd b <= cap.

(** The faults that come from the lists alone: a pointer to a node that
    is not live, or a list that runs in a circle. *)
Definition benign (e : fault) : Prop :=
  e = InvalidPointer \/ e = NoTermination.

(** A buffer of [cap] bytes. *)
Definition sized (cap : Z) (l : list byte) : Prop :=
  Z.of_nat (length l) = cap.

(** Node [n], if live, has at most [v] bytes. *)
Definition size_le (n : ptr) (v : Z) (m : mem) : Prop :=
  (n < brk m)%nat /\ forall nd, heap m !! n = Some nd -> s nd <= v.

(** The calls that meet the requirements the source asserts: positive
    sizes that fit an [int], and writes inside the buffer. *)
Definition well_called (cap : Z) (c : call) : Prop :=
  match c with
  | Alloc n => 0 < n
  | Free _ => True
  | Realloc _ n => 0 < n <= INT_MAX
  | Poke a _ => 0 <= a < cap
  end.

(** The state [m] with the bytes of its buffer replaced by [hb]. *)
Definition with_buffer (hb : list byte) (m : mem) : mem :=
  {| pl := option_map (fun p => {| h := hb; active := active p;
                                   available := available p |}) (pl m);
     heap := heap m; brk := brk m |}.


(** ** Sessions used below *)

(** The state a session ends in ([boot] if it faults). *)
Definition state_after (size : Z) (cs : list call) : mem :=
  match session size cs with
  | Ok (_, m) => m
  | Err _ => boot
  end.

(** What a session returns from its last call, with the two listings of
    the state it ends in. *)
Definition outcome {A} (size : Z) (cs : list call) (last : M A)
  : res (A * list (Z * Z) * list (Z * Z)) :=
  match (pool_create size ;; do_calls cs ;;
         r <- last ;;
         la <- pool_print_active ;;
         lv <- pool_print_available ;;
         ret (r, la, lv)) boot with
  | Ok (x, _) => Ok x
  | Err f => Err f
  end.

(** Two blocks are taken from a pool of ten bytes and the second one is
    given back while the first is still active. *)
Definition second_released : list call := [Alloc 3; Alloc 3; Free 3].

(** Four blocks are taken from a pool of ten bytes and the second one is
    given back: the third block has an active block right behind it. *)
Definition hemmed_in : list call :=
  [Alloc 1; Alloc 2; Alloc 1; Alloc 1; Free 1].

(** The states these sessions and their continuations end in. *)
Definition stale_head : mem := state_after 10 second_released.
Definition doubly_listed : mem := state_after 10 (second_released ++ [Alloc 7]).
Definition split_again : mem := state_after 10 (second_released ++ [Alloc 2]).
Definition drained : mem := state_after 10 (second_released ++ [Free 0]).
Definition grown : mem := state_after 10 (second_released ++ [Realloc 0 5]).
Definition there_and_back : mem :=
  state_after 10 (second_released ++ [Alloc 2; Free 3]).
Definition crowded : mem := state_after 10 hemmed_in.
Definition moved : mem := state_after 10 (hemmed_in ++ [Realloc 3 2]).

(** Two blocks of two bytes are taken from a pool of ten bytes and the
    first one is written to. *)
Definition two_written : mem :=
  state_after 10 [Alloc 2; Alloc 2; Poke 0 x68; Poke 1 x69].
Definition first_block : llnode :=
  {| s := 2; start := 0; prev := None; next := Some 1%nat |}.
Definition written_pool : pool :=
  {| h := [x68; x69; x00; x00; x00; x00; x00; x00; x00; x00];
     active := Some O; available := Some 2%nat |}.

(** ** Reading off what a successful computation did *)

Lemma bind_ok {A B} (c : M A) (k : A -> M B) m b m' :
  bind c k m = Ok (b, m') ->
  exists a m1, c m = Ok (a, m1) /\ k a m1 = Ok (b, m').
Proof.
  unfold bind. destruct (c m) as [[a m1]|f]; [|discriminate].
  intros H. exists a, m1. split; [reflexivity | exact H].
Qed.

Lemma ret_ok {A} (a b : A) m m' : ret a m = Ok (b, m') -> b = a /\ m' = m.
Proof. unfold ret. intros H. inversion H. split; reflexivity. Qed.

Lemma assert_ok b m u m' : assert b m = Ok (u, m') -> b = true /\ m' = m.
Proof.
  unfold assert. destruct b; cbn; intros H; [|discriminate].
  inversion H. split; reflexivity.
Qed.

Lemma get_pool_ok m p m' : get_pool m = Ok (p, m') -> pl m = Some p /\ m' = m.
Proof.
  unfold get_pool. destruct (pl m); intros H; [|discriminate].
  inversion H. split; reflexivity.
Qed.

Lemma steps_ok m f m' :
  steps m = Ok (f, m') -> f = S (size (heap m)) /\ m' = m.
Proof. unfold steps. intros H. inversion H. split; reflexivity. Qed.

Lemma load_ok n m nd m' :
  load n m = Ok (nd, m') -> heap m !! n = Some nd /\ m' = m.
Proof.
  unfold load. destruct (heap m !! n); intros H; [|discriminate].
  inversion H. split; reflexivity.
Qed.

Lemma int_of_ok z m z' m' : int_of z m = Ok (z', m') -> z' = z /\ m' = m.
Proof.
  unfold int_of. destruct (_ && _); cbn; intros H; [|discriminate].
  inversion H. split; reflexivity.
Qed.

Lemma buf_read_ok o m b m' : buf_read o m = Ok (b, m') -> m' = m.
Proof.
  unfold buf_read, bind, get_pool. destruct (pl m); [|discriminate].
  destruct (o <? 0); [discriminate|].
  destruct (h p !! Z.to_nat o); cbn; intros H; [|discriminate].
  inversion H. reflexivity.
Qed.

(** One step of reading a hypothesis [c m = Ok (a, m')] apart. *)
Ltac run_step :=
  match goal with
  | H : bind _ _ _ = Ok _ |- _ =>
      apply bind_ok in H; destruct H as (? & ? & ? & H); cbv beta in H
  | H : ret _ _ = Ok _ |- _ => apply ret_ok in H; destruct H; subst
  | H : throw _ _ = Ok _ |- _ => discriminate H
  | H : Err _ = Ok _ |- _ => discriminate H
  | H : assert _ _ = Ok _ |- _ => apply assert_ok in H; destruct H; subst
  | H : get_pool _ = Ok _ |- _ => apply get_pool_ok in H; destruct H; subst
  | H : steps _ = Ok _ |- _ => apply steps_ok in H; destruct H; subst
  | H : int_of _ _ = Ok _ |- _ => apply int_of_ok in H; destruct H; subst
  | H : buf_read _ _ = Ok _ |- _ => apply buf_read_ok in H; subst
  end.

(** A case distinction on what the computation branches on. *)
Ltac run_case :=
  match goal with
  | H : (match ?x with _ => _ end) _ = Ok _ |- _ => destruct x eqn:?
  | H : (if ?x then _ else _) _ = Ok _ |- _ => destruct x eqn:?
  end.

Ltac load_step :=
  match goal with
  | H : load _ _ = Ok _ |- _ => apply load_ok in H; destruct H; subst
  end.

(** ** Walks that only read *)

Lemma add_active_walk_same fuel node curr m r m' :
  add_active_walk fuel node curr m = Ok (r, m') -> m' = m.
Proof.
  revert curr. induction fuel as [|fuel IH]; intros curr H; cbn in H.
  - discriminate H.
  - run_step. load_step. run_step. load_step.
    repeat run_case; try run_step; try reflexivity.
    exact (IH _ H).
Qed.

Lemma add_available_walk_same fuel node curr m r m' :
  add_available_walk fuel node curr m = Ok (r, m') -> m' = m.
Proof.
  revert curr. induction fuel as [|fuel IH]; intros curr H; cbn in H.
  - discriminate H.
  - run_step. load_step. run_step. load_step.
    repeat run_case; try run_step; try reflexivity.
    exact (IH _ H).
Qed.

Lemma find_active_walk_same fuel addr node m r m' :
  find_active_walk fuel addr node m = Ok (r, m') -> m' = m.
Proof.
  revert node. induction fuel as [|fuel IH]; intros node H;
    destruct node as [n|]; cbn in H; try discriminate H.
  - run_step. reflexivity.
  - run_step. load_step.
    run_case; [run_step; reflexivity | exact (IH _ H)].
  - run_step. reflexivity.
Qed.

Lemma print_walk_same fuel node m r m' :
  print_walk fuel node m = Ok (r, m') -> m' = m.
Proof.
  revert node r m'. induction fuel as [|fuel IH]; intros node r m' H;
    destruct node as [n|]; cbn in H; try discriminate H.
  - run_step. reflexivity.
  - run_step. load_step. run_step.
    match goal with
    | Hw : print_walk _ _ _ = Ok _ |- _ => apply IH in Hw; subst
    end.
    run_step. reflexivity.
  - run_step. reflexivity.
Qed.

Ltac walk_same :=
  match goal with
  | H : add_active_walk _ _ _ _ = Ok _ |- _ =>
      apply add_active_walk_same in H; subst
  | H : add_available_walk _ _ _ _ = Ok _ |- _ =>
      apply add_available_walk_same in H; subst
  | H : find_active_walk _ _ _ _ = Ok _ |- _ =>
      apply find_active_walk_same in H; subst
  end.

(** ** The heap stays sound *)

Create HintDb sound.

Lemma load_sound n m nd m' :
  heap_sound m -> load n m = Ok (nd, m') -> m' = m /\ 0 < s nd.
Proof.
  intros Hp H. apply load_ok in H as [H ->]. split; [reflexivity|].
  exact (proj1 (Hp n nd H)).
Qed.

Lemma store_sound n nd m u m' :
  store n nd m = Ok (u, m') -> heap_sound m -> 0 < s nd ->
  heap_sound m'.
Proof.
  unfold store. intros H Hp Hs. destruct (heap m !! n) as [old|] eqn:Hn;
    [|discriminate].
  inversion H; subst; clear H. intros k kd. cbn.
  rewrite lookup_insert. case_decide.
  - intros [= <-]. subst k. split; [exact Hs | exact (proj2 (Hp n old Hn))].
  - apply Hp.
Qed.

Lemma set_s_sound n v m u m' :
  set_s n v m = Ok (u, m') -> heap_sound m -> 0 < v -> heap_sound m'.
Proof.
  unfold set_s. intros H Hp Hv. run_step. load_step.
  eapply store_sound; [exact H | exact Hp | exact Hv].
Qed.

Lemma set_prev_sound n v m u m' :
  set_prev n v m = Ok (u, m') -> heap_sound m -> heap_sound m'.
Proof.
  unfold set_prev. intros H Hp. run_step.
  match goal with
  | Hl : load _ _ = Ok _ |- _ => apply (load_sound _ _ _ _ Hp) in Hl as [-> Hs]
  end.
  eapply store_sound; [exact H | exact Hp | exact Hs].
Qed.

Lemma set_next_sound n v m u m' :
  set_next n v m = Ok (u, m') -> heap_sound m -> heap_sound m'.
Proof.
  unfold set_next. intros H Hp. run_step.
  match goal with
  | Hl : load _ _ = Ok _ |- _ => apply (load_sound _ _ _ _ Hp) in Hl as [-> Hs]
  end.
  eapply store_sound; [exact H | exact Hp | exact Hs].
Qed.

Lemma set_active_sound v m u m' :
  set_active v m = Ok (u, m') -> heap_sound m -> heap_sound m'.
Proof.
  unfold set_active. intros H Hp. destruct (pl m); [|discriminate].
  inversion H; subst. exact Hp.
Qed.

Lemma set_available_sound v m u m' :
  set_available v m = Ok (u, m') -> heap_sound m -> heap_sound m'.
Proof.
  unfold set_available. intros H Hp. destruct (pl m); [|discriminate].
  inversion H; subst. exact Hp.
Qed.

Lemma buf_write_sound o b m u m' :
  buf_write o b m = Ok (u, m') -> heap_sound m -> heap_sound m'.
Proof.
  unfold buf_write. intros H Hp. destruct (pl m); [|discriminate].
  destruct (_ && _); [|discriminate]. inversion H; subst. exact Hp.
Qed.

Lemma free_sound n m u m' :
  free n m = Ok (u, m') -> heap_sound m -> heap_sound m'.
Proof.
  unfold free. intros H Hp. destruct (heap m !! n); [|discriminate].
  inversion H; subst; clear H. intros k kd. cbn.
  intros Hk. apply lookup_delete_Some in Hk as [_ Hk]. exact (Hp k kd Hk).
Qed.

Lemma create_node_sound size begin m n m' :
  create_node size begin m = Ok (n, m') -> heap_sound m ->
  heap_sound m'.
Proof.
  unfold create_node. intros H Hp. run_step. run_step.
  match goal with Hlt : (0 <? size) = true |- _ => apply Z.ltb_lt in Hlt end.
  unfold malloc in H. inversion H; subst; clear H.
  intros k kd. cbn. rewrite lookup_insert. case_decide.
  - intros [= <-]. subst k. split; [assumption | lia].
  - intros Hk. destruct (Hp k kd Hk). split; [assumption | lia].
Qed.

#[local] Hint Resolve set_s_sound set_prev_sound set_next_sound set_active_sound
  set_available_sound buf_write_sound free_sound create_node_sound : sound.
#[local] Hint Extern 1 (0 < _) => lia : sound.

(** Carrying [heap_sound] across the next operation: a [load] yields a
    node of positive size, any other operation is looked up among the
    lemmas proved so far. *)
Ltac sound_step :=
  match goal with
  | Hp : heap_sound ?m, H : load _ ?m = Ok _ |- _ =>
      apply (load_sound _ _ _ _ Hp) in H; destruct H; subst
  | H : (0 <? _) = true |- _ => apply Z.ltb_lt in H
  | Hp : heap_sound ?m, H : _ ?m = Ok (_, ?m') |- _ =>
      assert (heap_sound m') by (eauto 3 with sound); clear H
  end.

Ltac sound_run :=
  repeat first [run_step | walk_same | sound_step | run_case]; try assumption.

Lemma add_active_sound node m u m' :
  add_active node m = Ok (u, m') -> heap_sound m -> heap_sound m'.
Proof. unfold add_active. intros H Hp. sound_run. Qed.

Lemma same_size_available_sound node m u m' :
  same_size_available node m = Ok (u, m') -> heap_sound m ->
  heap_sound m'.
Proof. unfold same_size_available. intros H Hp. sound_run. Qed.

Lemma more_size_available_sound node size m u m' :
  more_size_available node size m = Ok (u, m') -> heap_sound m ->
  heap_sound m'.
Proof. unfold more_size_available. intros H Hp. sound_run. Qed.

#[local] Hint Resolve add_active_sound same_size_available_sound
  more_size_available_sound : sound.

Lemma pool_alloc_walk_sound fuel size node m r m' :
  pool_alloc_walk fuel size node m = Ok (r, m') -> heap_sound m ->
  heap_sound m'.
Proof.
  revert node m. induction fuel as [|fuel IH]; intros node m H Hp;
    destruct node as [n|]; cbn in H; sound_run.
Qed.

#[local] Hint Resolve pool_alloc_walk_sound : sound.

Lemma pool_alloc_sound size m r m' :
  pool_alloc size m = Ok (r, m') -> heap_sound m -> heap_sound m'.
Proof. unfold pool_alloc. intros H Hp. sound_run. Qed.

Lemma add_available_sound node m u m' :
  add_available node m = Ok (u, m') -> heap_sound m -> heap_sound m'.
Proof. unfold add_available. intros H Hp. sound_run. Qed.

#[local] Hint Resolve pool_alloc_sound add_available_sound : sound.

Lemma pool_free_walk_sound fuel addr node m r m' :
  pool_free_walk fuel addr node m = Ok (r, m') -> heap_sound m ->
  heap_sound m'.
Proof.
  revert node m. induction fuel as [|fuel IH]; intros node m H Hp;
    destruct node as [n|]; cbn in H; sound_run.
Qed.

#[local] Hint Resolve pool_free_walk_sound : sound.

Lemma pool_free_sound addr m r m' :
  pool_free addr m = Ok (r, m') -> heap_sound m -> heap_sound m'.
Proof. unfold pool_free. intros H Hp. sound_run. Qed.

Lemma find_available_walk_sound fuel addr size node m r m' :
  find_available_walk fuel addr size node m = Ok (r, m') ->
  heap_sound m -> 0 < size -> heap_sound m'.
Proof.
  intros H Hp Hsize. revert node m H Hp.
  induction fuel as [|fuel IH]; intros node m H Hp;
    destruct node as [n|]; cbn in H; sound_run.
Qed.

#[local] Hint Resolve pool_free_sound find_available_walk_sound : sound.

Lemma find_available_sound addr size m r m' :
  find_available addr size m = Ok (r, m') -> heap_sound m ->
  heap_sound m'.
Proof. unfold find_available. intros H Hp. sound_run. Qed.

Lemma copy_walk_sound fuel node dst i m u m' :
  copy_walk fuel node dst i m = Ok (u, m') -> heap_sound m ->
  heap_sound m'.
Proof.
  revert i m. induction fuel as [|fuel IH]; intros i m H Hp; cbn in H;
    sound_run.
Qed.

#[local] Hint Resolve find_available_sound copy_walk_sound : sound.

Lemma pool_realloc_sound addr size m r m' :
  pool_realloc addr size m = Ok (r, m') -> heap_sound m ->
  heap_sound m'.
Proof. unfold pool_realloc, find_active. intros H Hp. sound_run. Qed.

Lemma pool_create_sound size m u m' :
  pool_create size m = Ok (u, m') -> heap_sound m -> heap_sound m'.
Proof.
  unfold pool_create. intros H Hp. sound_run. inversion H; subst. assumption.
Qed.

#[local] Hint Resolve pool_realloc_sound : sound.

Lemma do_call_sound c m u m' :
  do_call c m = Ok (u, m') -> heap_sound m -> heap_sound m'.
Proof. destruct c; unfold do_call, poke; intros H Hp; sound_run. Qed.

Lemma boot_sound : heap_sound boot.
Proof. intros n nd H. cbn in H. rewrite lookup_empty in H. discriminate H. Qed.

(** ** Reachable states *)

Lemma reachable_heap_sound m : reachable m -> heap_sound m.
Proof.
  induction 1 as [size m H | c m m' _ IH H].
  - exact (pool_create_sound _ _ _ _ H boot_sound).
  - exact (do_call_sound _ _ _ _ H IH).
Qed.

Lemma do_calls_reachable cs m u m' :
  reachable m -> do_calls cs m = Ok (u, m') -> reachable m'.
Proof.
  revert m. induction cs as [|c cs IH]; intros m Hr H; cbn in H.
  - run_step. exact Hr.
  - run_step.
    match goal with
    | Hc : do_call _ _ = Ok (?x, _) |- _ => destruct x
    end.
    eapply IH; [|exact H]. eapply reach_call; eassumption.
Qed.

Lemma session_reachable size cs m :
  session size cs = Ok (tt, m) -> reachable m.
Proof.
  unfold session. intros H. run_step.
  match goal with
  | Hc : pool_create _ _ = Ok (?x, _) |- _ => destruct x
  end.
  eapply do_calls_reachable; [|exact H].
  eapply reach_create; eassumption.
Qed.

(** ** Running a computation forward *)

Lemma bind_run {A B} (c : M A) (k : A -> M B) m a m1 :
  c m = Ok (a, m1) -> bind c k m = k a m1.
Proof. unfold bind. intros ->. reflexivity. Qed.

Lemma load_run n m nd : heap m !! n = Some nd -> load n m = Ok (nd, m).
Proof. unfold load. intros ->. reflexivity. Qed.

Lemma get_pool_run m p : pl m = Some p -> get_pool m = Ok (p, m).
Proof. unfold get_pool. intros ->. reflexivity. Qed.

(** ** Lookup by exact offset *)

Section ExactLookup.

Variable addr : Z.
Variable m : mem.

(** What [find_active] returns is the first block of the listing that
    starts at [addr]. *)
Lemma find_active_walk_block fuel node la b :
  print_walk fuel node m = Ok (la, m) ->
  block_at addr la = Some b ->
  exists n nd,
    find_active_walk fuel addr node m = Ok (Some n, m) /\
    heap m !! n = Some nd /\ start nd = addr /\ b = (addr, s nd).
Proof.
  revert node la. induction fuel as [|fuel IH]; intros node la Hw Hb;
    destruct node as [n|]; cbn in Hw.
  - discriminate Hw.
  - run_step. discriminate Hb.
  - run_step.
    match goal with
    | Hl : load _ _ = Ok (?x, _) |- _ =>
        apply load_ok in Hl as [Hn ->]; rename x into nd
    end.
    run_step.
    match goal with
    | Hp : print_walk _ _ _ = Ok _ |- _ =>
        pose proof (print_walk_same _ _ _ _ _ Hp) as ->; rename Hp into Hrest
    end.
    run_step. cbn in Hb. cbn [find_active_walk].
    rewrite (bind_run _ _ _ _ _ (load_run _ _ _ Hn)).
    destruct (start nd =? addr) eqn:E.
    + apply Z.eqb_eq in E. injection Hb as <-.
      exists n, nd. rewrite E. repeat split; try reflexivity; assumption.
    + exact (IH _ _ Hrest Hb).
  - run_step. discriminate Hb.
Qed.

Lemma find_active_block la b :
  pool_print_active m = Ok (la, m) ->
  block_at addr la = Some b ->
  exists n nd,
    find_active addr m = Ok (Some n, m) /\
    heap m !! n = Some nd /\ start nd = addr /\ b = (addr, s nd).
Proof.
  unfold pool_print_active, find_active. intros Hw Hb.
  run_step. run_step. run_step. run_step.
  rewrite (bind_run _ _ _ _ _ (get_pool_run _ _ ltac:(eassumption))).
  unfold steps at 1. cbn [bind].
  exact (find_active_walk_block _ _ _ _ Hw Hb).
Qed.

(** [pool_realloc] to the size the node already has: the lookup, one
    comparison, and nothing else. *)
Lemma pool_realloc_found_same_size n nd :
  find_active addr m = Ok (Some n, m) ->
  heap m !! n = Some nd ->
  start nd = addr ->
  0 < s nd ->
  pool_realloc addr (s nd) m = Ok (Some addr, m).
Proof.
  intros Hf Hn Hs Hpos. unfold pool_realloc.
  assert (Ha : assert (0 <? s nd) m = Ok (tt, m)).
  { unfold assert. apply Z.ltb_lt in Hpos. rewrite Hpos. reflexivity. }
  rewrite (bind_run _ _ _ _ _ Ha).
  rewrite (bind_run _ _ _ _ _ Hf).
  rewrite (bind_run _ _ _ _ _ (load_run _ _ _ Hn)).
  rewrite Z.eqb_refl, Hs. reflexivity.
Qed.

End ExactLookup.

(** ** What a failing call leaves behind *)

Ltac frame_step :=
  first
    [ run_step
    | match goal with
      | H : load _ _ = Ok _ |- _ => apply load_ok in H; destruct H; subst
      | H : Some _ = None |- _ => discriminate H
      | H : None = Some _ |- _ => discriminate H
      | H : true = false |- _ => discriminate H
      | H : false = true |- _ => discriminate H
      end
    | run_case ].

Ltac frame_run := repeat frame_step.

(** [pool_alloc] that returns the null pointer has written nothing. *)
Lemma pool_alloc_walk_none fuel size node m m' :
  pool_alloc_walk fuel size node m = Ok (None, m') -> m' = m.
Proof.
  revert node. induction fuel as [|fuel IH]; intros node H;
    destruct node as [n|]; cbn in H; try discriminate H.
  - run_step. reflexivity.
  - frame_step. frame_step. run_case.
    + exact (IH _ H).
    + frame_run.
  - run_step. reflexivity.
Qed.

Lemma pool_alloc_none size m m' :
  pool_alloc size m = Ok (None, m') -> m' = m.
Proof.
  unfold pool_alloc. intros H. frame_run; try reflexivity.
  eapply pool_alloc_walk_none; eassumption.
Qed.

(** [pool_free] that returns false has written nothing. *)
Lemma pool_free_walk_false fuel addr node m m' :
  pool_free_walk fuel addr node m = Ok (false, m') -> m' = m.
Proof.
  revert node. induction fuel as [|fuel IH]; intros node H;
    destruct node as [n|]; cbn in H; try discriminate H.
  - run_step. reflexivity.
  - frame_step. frame_step. run_case.
    + frame_run.
    + exact (IH _ H).
  - run_step. reflexivity.
Qed.

(** X14: [pool_free] that returns false has left the pool, the buffer
    and every list node as they were. *)
Lemma pool_free_false addr m m' :
  pool_free addr m = Ok (false, m') -> m' = m.
Proof.
  unfold pool_free. intros H. frame_run.
  eapply pool_free_walk_false; eassumption.
Qed.

(** [find_available] that finds nothing has written nothing. *)
Lemma find_available_walk_none fuel addr size node m m' :
  find_available_walk fuel addr size node m = Ok (None, m') -> m' = m.
Proof.
  revert node. induction fuel as [|fuel IH]; intros node H;
    destruct node as [n|]; cbn in H; try discriminate H.
  - run_step. reflexivity.
  - frame_step. frame_step. run_case; [run_case|].
    + frame_run; reflexivity.
    + exact (IH _ H).
    + run_step. reflexivity.
  - run_step. reflexivity.
Qed.

Lemma find_available_none addr size m m' :
  find_available addr size m = Ok (None, m') -> m' = m.
Proof.
  unfold find_available. intros H. frame_run.
  eapply find_available_walk_none; eassumption.
Qed.

Lemma find_active_same addr m r m' :
  find_active addr m = Ok (r, m') -> m' = m.
Proof.
  unfold find_active. intros H. frame_run.
  eapply find_active_walk_same; eassumption.
Qed.

(** X17: [pool_realloc] that returns the null pointer has written
    nothing: neither the lookup, nor the probe for room behind the block,
    nor the fallback allocation leaves a trace when it fails. *)
Lemma pool_realloc_none addr size m m' :
  pool_realloc addr size m = Ok (None, m') -> m' = m.
Proof.
  unfold pool_realloc. intros H.
  repeat first
    [ frame_step
    | match goal with
      | Hf : find_active _ _ = Ok _ |- _ =>
          apply find_active_same in Hf; subst
      | Hf : find_available _ _ _ = Ok (None, _) |- _ =>
          apply find_available_none in Hf; subst
      | Hf : pool_alloc _ _ = Ok (None, _) |- _ =>
          apply pool_alloc_none in Hf; subst
      end ];
    reflexivity.
Qed.

(** [pool_destroy] returns false exactly when [p->active] is not null, and
    then it has written nothing. *)
Lemma pool_destroy_false m m' :
  pool_destroy m = Ok (false, m') ->
  m' = m /\ exists p n, pl m = Some p /\ active p = Some n.
Proof.
  unfold pool_destroy. intros H. run_step. run_step. run_case.
  - run_step. split; [reflexivity|]. eauto.
  - run_step. inversion H.
Qed.

Lemma pool_destroy_true m m' :
  pool_destroy m = Ok (true, m') ->
  exists p, pl m = Some p /\ active p = None /\ pl m' = None.
Proof.
  unfold pool_destroy. intros H. run_step. run_step. run_case.
  - run_step. discriminate.
  - run_step. inversion H; subst. eexists. repeat split; eauto.
Qed.

(** ** What the lookups answer *)

Create HintDb anchor.

Lemma store_anchor k nd m u m' n z :
  store k nd m = Ok (u, m') -> start_is n z m ->
  (k = n -> start nd = z) -> start_is n z m'.
Proof.
  unfold store. intros H (old & Hn & Hz) Hk.
  destruct (heap m !! k); [|discriminate]. inversion H; subst; clear H.
  unfold start_is. cbn. rewrite lookup_insert. case_decide.
  - exists nd. split; [reflexivity | auto].
  - exists old. split; [exact Hn | reflexivity].
Qed.

Lemma set_field_anchor k f m u m' n z :
  (nd <- load k ;; store k (f nd)) m = Ok (u, m') ->
  (forall nd, start (f nd) = start nd) ->
  start_is n z m -> start_is n z m'.
Proof.
  intros H Hf Ha. run_step. load_step.
  eapply store_anchor; [exact H | exact Ha |].
  intros ->. destruct Ha as (old & Hn & Hz).
  rewrite Hf. congruence.
Qed.

Lemma set_s_anchor k v m u m' n z :
  set_s k v m = Ok (u, m') -> start_is n z m -> start_is n z m'.
Proof.
  intros H. exact (set_field_anchor k _ m u m' n z H (fun _ => eq_refl)).
Qed.

Lemma set_prev_anchor k v m u m' n z :
  set_prev k v m = Ok (u, m') -> start_is n z m -> start_is n z m'.
Proof.
  intros H. exact (set_field_anchor k _ m u m' n z H (fun _ => eq_refl)).
Qed.

Lemma set_next_anchor k v m u m' n z :
  set_next k v m = Ok (u, m') -> start_is n z m -> start_is n z m'.
Proof.
  intros H. exact (set_field_anchor k _ m u m' n z H (fun _ => eq_refl)).
Qed.

Lemma set_active_anchor v m u m' n z :
  set_active v m = Ok (u, m') -> start_is n z m -> start_is n z m'.
Proof.
  unfold set_active. intros H Ha. destruct (pl m); [|discriminate].
  inversion H; subst. exact Ha.
Qed.

Lemma set_available_anchor v m u m' n z :
  set_available v m = Ok (u, m') -> start_is n z m -> start_is n z m'.
Proof.
  unfold set_available. intros H Ha. destruct (pl m); [|discriminate].
  inversion H; subst. exact Ha.
Qed.

(** A new node never lands on a live one. *)
Lemma create_node_anchor size begin m k m' n z :
  create_node size begin m = Ok (k, m') -> heap_sound m ->
  start_is n z m -> start_is n z m'.
Proof.
  unfold create_node. intros H Hp (old & Hn & Hz). run_step. run_step.
  unfold malloc in H. inversion H; subst; clear H.
  exists old. split; [|reflexivity]. cbn.
  rewrite lookup_insert_ne; [exact Hn|].
  pose proof (proj2 (Hp n old Hn)). lia.
Qed.

#[local] Hint Resolve set_s_anchor set_prev_anchor set_next_anchor
  set_active_anchor set_available_anchor create_node_anchor : anchor.

(** Carrying [heap_sound] and [start_is] across the next operation. *)
Ltac anchor_step :=
  match goal with
  | Hp : heap_sound ?m, Ha : start_is ?n ?z ?m,
    H : _ ?m = Ok (_, ?m') |- _ =>
      assert (start_is n z m') by (eauto 3 with anchor);
      assert (heap_sound m') by (eauto 3 with sound);
      clear H
  end.

Ltac anchor_run :=
  repeat first [run_step | walk_same | load_step | anchor_step | run_case];
  try assumption.

Lemma same_size_available_anchor node m u m' n z :
  same_size_available node m = Ok (u, m') -> heap_sound m ->
  start_is n z m -> start_is n z m'.
Proof. unfold same_size_available. intros H Hp Ha. anchor_run. Qed.

Lemma more_size_available_anchor node size m u m' n z :
  more_size_available node size m = Ok (u, m') -> heap_sound m ->
  start_is n z m -> start_is n z m'.
Proof.
  unfold more_size_available. intros H Hp Ha.
  repeat first [run_step | load_step].
  match goal with Hlt : (0 <? size) = true |- _ => apply Z.ltb_lt in Hlt end.
  anchor_run.
Qed.

Lemma add_active_anchor node m u m' n z :
  add_active node m = Ok (u, m') -> heap_sound m ->
  start_is n z m -> start_is n z m'.
Proof. unfold add_active. intros H Hp Ha. anchor_run. Qed.

#[local] Hint Resolve same_size_available_anchor more_size_available_anchor
  add_active_anchor : anchor.

(** Whenever [pool_alloc] returns, it returns the offset of the first
    block of the available listing that is long enough, and the null
    pointer when there is none. *)
Lemma pool_alloc_walk_first_fit fuel size node m lv r m' :
  heap_sound m ->
  print_walk fuel node m = Ok (lv, m) ->
  pool_alloc_walk fuel size node m = Ok (r, m') ->
  r = option_map fst (first_fit size lv).
Proof.
  intros Hp. revert node lv.
  induction fuel as [|fuel IH]; intros node lv Hw H;
    destruct node as [n|]; cbn in Hw, H; try discriminate H.
  - apply ret_ok in Hw as [-> _]. apply ret_ok in H as [-> _]. reflexivity.
  - apply bind_ok in Hw as (nd & m1 & Hl & Hw). cbv beta in Hw.
    apply load_ok in Hl as [Hn ->].
    apply bind_ok in Hw as (rest & m2 & Hrest & Hw). cbv beta in Hw.
    pose proof (print_walk_same _ _ _ _ _ Hrest) as ->.
    apply ret_ok in Hw as [-> _].
    rewrite (bind_run _ _ _ _ _ (load_run _ _ _ Hn)) in H.
    unfold first_fit. cbn [List.find snd].
    destruct (s nd <? size) eqn:E.
    + apply Z.ltb_lt in E.
      replace (size <=? s nd) with false by (symmetry; apply Z.leb_gt; lia).
      exact (IH _ _ Hrest H).
    + apply Z.ltb_ge in E.
      replace (size <=? s nd) with true by (symmetry; apply Z.leb_le; lia).
      cbn [option_map fst].
      assert (Ha : start_is n (start nd) m) by (exists nd; auto).
      anchor_run.
      all: match goal with
           | Hz : start_is ?k _ ?m2, Hl : heap ?m2 !! ?k = Some _ |- _ =>
               destruct Hz as (y & Hy & Hz); rewrite Hy in Hl;
               injection Hl as <-; rewrite Hz; reflexivity
           end.
  - run_step. run_step. reflexivity.
Qed.

(** X9: in a state a client can reach, whenever [pool_alloc] returns,
    what it returns is the offset of the first block of the available
    listing that has at least [size] bytes, and the null pointer if the
    listing has no such block. *)
Lemma pool_alloc_first_fit size m lv r m' :
  reachable m ->
  pool_print_available m = Ok (lv, m) ->
  pool_alloc size m = Ok (r, m') ->
  r = option_map fst (first_fit size lv).
Proof.
  unfold pool_print_available, pool_alloc. intros Hr Hw H.
  apply reachable_heap_sound in Hr.
  repeat run_step.
  match goal with
  | H1 : pl _ = Some ?p, H2 : pl _ = Some ?q |- _ =>
      assert (q = p) by congruence; subst q; clear H2
  end.
  run_case.
  - repeat run_step.
    exact (pool_alloc_walk_first_fit _ _ _ _ _ _ _ Hr Hw H).
  - run_step. cbn in Hw. run_step. reflexivity.
Qed.

(** Whenever [pool_free] returns, it returns true exactly when a block of
    the active listing starts at [addr]. *)
Lemma pool_free_walk_result fuel addr node m la b m' :
  print_walk fuel node m = Ok (la, m) ->
  pool_free_walk fuel addr node m = Ok (b, m') ->
  b = match block_at addr la with Some _ => true | None => false end.
Proof.
  revert node la. induction fuel as [|fuel IH]; intros node la Hw H;
    destruct node as [n|]; cbn in Hw, H; try discriminate H.
  - apply ret_ok in Hw as [-> _]. apply ret_ok in H as [-> _]. reflexivity.
  - apply bind_ok in Hw as (nd & m1 & Hl & Hw). cbv beta in Hw.
    apply load_ok in Hl as [Hn ->].
    apply bind_ok in Hw as (rest & m2 & Hrest & Hw). cbv beta in Hw.
    pose proof (print_walk_same _ _ _ _ _ Hrest) as ->.
    apply ret_ok in Hw as [-> _].
    rewrite (bind_run _ _ _ _ _ (load_run _ _ _ Hn)) in H.
    unfold block_at. cbn [List.find fst].
    destruct (start nd =? addr) eqn:E.
    + repeat run_step. reflexivity.
    + exact (IH _ _ Hrest H).
  - run_step. run_step. reflexivity.
Qed.

(** X12: whenever [pool_free] returns, the answer is true exactly when
    the active listing has a block that starts at [addr]. *)
Lemma pool_free_result addr m la b m' :
  pool_print_active m = Ok (la, m) ->
  pool_free addr m = Ok (b, m') ->
  b = match block_at addr la with Some _ => true | None => false end.
Proof.
  unfold pool_print_active, pool_free. intros Hw H. repeat run_step.
  match goal with
  | H1 : pl _ = Some ?p, H2 : pl _ = Some ?q |- _ =>
      assert (q = p) by congruence; subst q; clear H2
  end.
  exact (pool_free_walk_result _ _ _ _ _ _ _ Hw H).
Qed.

(** ** The worked scenarios of the specification *)

(** Capacity exhaustion: of ten bytes, five are taken; six more do not
    fit; five more fit exactly. *)
Example capacity_exhaustion :
  outcome 10 [] (pool_alloc 5) = Ok (Some 0, [(0, 5)], [(5, 5)]) /\
  outcome 10 [Alloc 5] (pool_alloc 6) = Ok (None, [(0, 5)], [(5, 5)]) /\
  outcome 10 [Alloc 5] (pool_alloc 5) = Ok (Some 5, [(0, 5); (5, 5)], []).
Proof. repeat split; vm_compute; reflexivity. Qed.

(** Coalescing: with the whole pool allocated as 3 + 3 + 4 bytes,
    giving back the second and then the first block leaves one available
    block of six bytes. *)
Example coalescing :
  outcome 10 [Alloc 3; Alloc 3; Alloc 4; Free 3] (pool_free 0)
  = Ok (true, [(6, 4)], [(0, 6)]).
Proof. vm_compute. reflexivity. Qed.

(** Destroy guard: a pool with an outstanding block is not destroyed;
    once the block is given back it is, and no node is left behind. *)
Example destroy_guard :
  pool_destroy (state_after 4 [Alloc 4])
    = Ok (false, state_after 4 [Alloc 4]) /\
  pool_destroy (state_after 4 [Alloc 4; Free 0])
    = Ok (true, {| pl := None; heap := ∅; brk := 1%nat |}).
Proof. split; vm_compute; reflexivity. Qed.

(** Grow fallback: the first of two adjacent blocks holds the bytes "hi";
    growing it to three bytes moves it behind the second block, the bytes
    arrive at the new offset, and the old offset is available again. *)
Example grow_fallback :
  outcome 10 [Alloc 2; Alloc 2; Poke 0 x68; Poke 1 x69] (pool_realloc 0 3)
    = Ok (Some 4, [(2, 2); (4, 3)], [(0, 2); (7, 3)]) /\
  outcome 10 [Alloc 2; Alloc 2; Poke 0 x68; Poke 1 x69; Realloc 0 3]
    (b0 <- buf_read 4 ;; b1 <- buf_read 5 ;; ret [b0; b1])
    = Ok ([x68; x69], [(2, 2); (4, 3)], [(0, 2); (7, 3)]).
Proof. split; vm_compute; reflexivity. Qed.

(** ** The claims *)

(** Showing that a state is not partitioned: one byte with the wrong
    number of owners is enough. *)
Lemma not_partitions m p la lv o :
  pl m = Some p ->
  pool_print_active m = Ok (la, m) ->
  pool_print_available m = Ok (lv, m) ->
  0 <= o < Z.of_nat (length (h p)) ->
  owners o (la ++ lv) <> 1%nat ->
  ~ partitions m.
Proof.
  intros Hp Ha Hv Ho Hn (p' & la' & lv' & Hp' & Ha' & Hv' & Hall).
  rewrite Hp in Hp'. injection Hp' as <-.
  rewrite Ha in Ha'. injection Ha' as <-.
  rewrite Hv in Hv'. injection Hv' as <-.
  exact (Hn (Hall o Ho)).
Qed.

Lemma not_coalesced m lv b1 b2 :
  pool_print_available m = Ok (lv, m) ->
  In b1 lv -> In b2 lv -> fst b1 + snd b1 = fst b2 ->
  ~ coalesced m.
Proof.
  intros Hv H1 H2 Hadj (lv' & Hv' & Hno).
  rewrite Hv in Hv'. injection Hv' as <-.
  exact (Hno b1 b2 H1 H2 Hadj).
Qed.

Lemma stale_head_reachable : reachable stale_head.
Proof. apply (session_reachable 10 second_released). vm_compute. reflexivity. Qed.

Lemma crowded_reachable : reachable crowded.
Proof. apply (session_reachable 10 hemmed_in). vm_compute. reflexivity. Qed.

(** What the failures below have in common: [add_available] puts a node
    at the head of a non-empty available list without resetting its
    [prev].  After the second block is given back, the head of the
    available list still points back at the active node, as it did while
    it was active itself; [same_size_available], [more_size_available] and
    [add_available] then take it for a node in the middle of the list. *)
Lemma available_head_keeps_prev :
  session 10 second_released = Ok (tt, stale_head) /\
  option_map active (pl stale_head) = Some (Some O) /\
  option_map available (pl stale_head) = Some (Some 1%nat) /\
  heap stale_head !! 1%nat
    = Some {| s := 7; start := 3; prev := Some O; next := None |}.
Proof. repeat split; vm_compute; reflexivity. Qed.

(** C1 (fails on the code): after create(10), alloc(3), alloc(3), free(3),
    alloc(7) no call has faulted, yet the node of the block at offset 3 is
    in the active list and still in the available list, so the bytes 3..9
    have two owners and the two lists do not partition the buffer. *)
Theorem partition_broken_after_reuse :
  session 10 (second_released ++ [Alloc 7]) = Ok (tt, doubly_listed) /\
  reachable doubly_listed /\
  pool_print_active doubly_listed = Ok ([(0, 3); (3, 7)], doubly_listed) /\
  pool_print_available doubly_listed = Ok ([(3, 7)], doubly_listed) /\
  ~ partitions doubly_listed.
Proof.
  assert (Hs : session 10 (second_released ++ [Alloc 7])
               = Ok (tt, doubly_listed)) by (vm_compute; reflexivity).
  assert (Ha : pool_print_active doubly_listed
               = Ok ([(0, 3); (3, 7)], doubly_listed))
    by (vm_compute; reflexivity).
  assert (Hv : pool_print_available doubly_listed
               = Ok ([(3, 7)], doubly_listed)) by (vm_compute; reflexivity).
  repeat split; try assumption.
  - exact (session_reachable _ _ _ Hs).
  - eapply (not_partitions _ _ _ _ 3); [vm_compute; reflexivity | exact Ha
      | exact Hv | vm_compute; split; congruence | vm_compute; congruence ].
Qed.

(** C2 (fails on the code): after create(10), alloc(3), alloc(3), free(3),
    alloc(2) the available list reads 3 [2], 5 [5]: its first block ends
    at offset 5, where its second block starts. *)
Theorem adjacent_available_blocks_after_reuse :
  session 10 (second_released ++ [Alloc 2]) = Ok (tt, split_again) /\
  reachable split_again /\
  pool_print_available split_again = Ok ([(3, 2); (5, 5)], split_again) /\
  ~ coalesced split_again.
Proof.
  assert (Hs : session 10 (second_released ++ [Alloc 2])
               = Ok (tt, split_again)) by (vm_compute; reflexivity).
  assert (Hv : pool_print_available split_again
               = Ok ([(3, 2); (5, 5)], split_again))
    by (vm_compute; reflexivity).
  repeat split; try assumption.
  - exact (session_reachable _ _ _ Hs).
  - apply (not_coalesced _ _ (3, 2) (5, 5) Hv); cbn; auto.
Qed.

(** C3 (fails on the code): in the state after create(10), alloc(3),
    alloc(3), free(3) the block at offset 0 is active and free(0) returns
    true, but the block does not arrive in the available list: the head of
    that list is left pointing at a node that the call has freed, so the
    list cannot be walked any more, and the merged node is out of reach. *)
Theorem release_loses_the_available_list :
  reachable stale_head /\
  pool_print_active stale_head = Ok ([(0, 3)], stale_head) /\
  pool_print_available stale_head = Ok ([(3, 7)], stale_head) /\
  pool_free 0 stale_head = Ok (true, drained) /\
  pool_print_active drained = Ok ([], drained) /\
  pool_print_available drained = Err InvalidPointer.
Proof.
  repeat split; try (vm_compute; reflexivity).
  exact stale_head_reachable.
Qed.

(** C4 (fails on the code): in the state after create(10), alloc(3),
    alloc(3), free(3) the available list is 3 [7]; alloc(7) picks that
    block, whose length equals the request, and returns offset 3, but the
    block is not taken out of the available list: afterwards it is listed
    as active and as available. *)
Theorem exact_fit_stays_available :
  reachable stale_head /\
  pool_print_available stale_head = Ok ([(3, 7)], stale_head) /\
  pool_alloc 7 stale_head = Ok (Some 3, doubly_listed) /\
  pool_print_active doubly_listed = Ok ([(0, 3); (3, 7)], doubly_listed) /\
  pool_print_available doubly_listed = Ok ([(3, 7)], doubly_listed).
Proof.
  repeat split; try (vm_compute; reflexivity).
  exact stale_head_reachable.
Qed.

(** C5 (fails on the code): with blocks 0 [1], 3 [1], 4 [1] active and
    1 [2], 5 [5] available, realloc of the block at 3 to two bytes cannot
    grow in place (offset 4 is not free) and falls back to alloc(2), which
    returns offset 1; but the old address 3 is not released: the blocks at
    3 and 4 have dropped out of the active list, [pool_free] does not find
    address 3, and offset 3 is in neither list afterwards. *)
Theorem grow_fallback_drops_the_old_block :
  reachable crowded /\
  pool_print_active crowded = Ok ([(0, 1); (3, 1); (4, 1)], crowded) /\
  pool_print_available crowded = Ok ([(1, 2); (5, 5)], crowded) /\
  find_available 4 1 crowded = Ok (None, crowded) /\
  pool_realloc 3 2 crowded = Ok (Some 1, moved) /\
  pool_free 3 moved = Ok (false, moved) /\
  pool_print_active moved = Ok ([(0, 1); (1, 2); (5, 5)], moved) /\
  pool_print_available moved = Ok ([(1, 2); (5, 5)], moved) /\
  owners 3 ([(0, 1); (1, 2); (5, 5)] ++ [(1, 2); (5, 5)]) = 0%nat.
Proof.
  repeat split; try (vm_compute; reflexivity).
  exact crowded_reachable.
Qed.

(** C6 (fails on the code): in the state after create(10), alloc(3),
    alloc(3), free(3) the block 0 [3] is active and the available block
    3 [7] starts right behind it; realloc(0, 5) grows in place and
    returns 0, but the five bytes that remain do not stay in the available
    list: the remainder 5 [5] is linked into the active list, and the head
    of the available list is left pointing at the node that was freed. *)
Theorem grow_in_place_misplaces_the_remainder :
  reachable stale_head /\
  pool_print_active stale_head = Ok ([(0, 3)], stale_head) /\
  pool_print_available stale_head = Ok ([(3, 7)], stale_head) /\
  pool_realloc 0 5 stale_head = Ok (Some 0, grown) /\
  pool_print_active grown = Ok ([(0, 5); (5, 5)], grown) /\
  pool_print_available grown = Err InvalidPointer.
Proof.
  repeat split; try (vm_compute; reflexivity).
  exact stale_head_reachable.
Qed.

(** C7 (fails on the code): in the state after create(10), alloc(3),
    alloc(3), free(3) the available list is 3 [7]; alloc(2) returns 3 and
    free(3) returns true, but the available list is not back to 3 [7]: the
    seven bytes have been merged into the active block at offset 0, which
    now reads 0 [10], and the head of the available list points at a freed
    node, so that the list cannot be walked. *)
Theorem alloc_free_round_trip_broken :
  reachable stale_head /\
  pool_print_active stale_head = Ok ([(0, 3)], stale_head) /\
  pool_print_available stale_head = Ok ([(3, 7)], stale_head) /\
  pool_alloc 2 stale_head = Ok (Some 3, split_again) /\
  pool_free 3 split_again = Ok (true, there_and_back) /\
  pool_print_active there_and_back = Ok ([(0, 10)], there_and_back) /\
  pool_print_available there_and_back = Err InvalidPointer.
Proof.
  repeat split; try (vm_compute; reflexivity).
  exact stale_head_reachable.
Qed.

(** C8: in every reachable state, when the active block found at the exact
    offset [addr] has length [L], [pool_realloc(p, addr, L)] returns
    [addr] and leaves the whole state as it was: the pool (its buffer and
    both list heads), every node, and the allocator. *)
Theorem pool_realloc_same_size_noop m la addr L :
  reachable m ->
  pool_print_active m = Ok (la, m) ->
  block_at addr la = Some (addr, L) ->
  pool_realloc addr L m = Ok (Some addr, m).
Proof.
  intros Hr Hw Hb.
  destruct (find_active_block _ _ _ _ Hw Hb) as (n & nd & Hf & Hn & Hs & Hl).
  injection Hl as ->.
  apply (pool_realloc_found_same_size _ _ n nd Hf Hn Hs).
  exact (proj1 (reachable_heap_sound _ Hr _ _ Hn)).
Qed.

(** A concrete instance: the second of two three-byte blocks is resized
    to its own length. *)
Lemma pool_realloc_same_size_noop_witness :
  reachable (state_after 10 [Alloc 3; Alloc 3]) /\
  pool_print_active (state_after 10 [Alloc 3; Alloc 3])
    = Ok ([(0, 3); (3, 3)], state_after 10 [Alloc 3; Alloc 3]) /\
  block_at 3 [(0, 3); (3, 3)] = Some (3, 3) /\
  pool_realloc 3 3 (state_after 10 [Alloc 3; Alloc 3])
    = Ok (Some 3, state_after 10 [Alloc 3; Alloc 3]).
Proof.
  assert (Hr : reachable (state_after 10 [Alloc 3; Alloc 3])).
  { apply (session_reachable 10 [Alloc 3; Alloc 3]). vm_compute. reflexivity. }
  assert (Hw : pool_print_active (state_after 10 [Alloc 3; Alloc 3])
               = Ok ([(0, 3); (3, 3)], state_after 10 [Alloc 3; Alloc 3])).
  { vm_compute. reflexivity. }
  assert (Hb : block_at 3 [(0, 3); (3, 3)] = Some (3, 3)).
  { reflexivity. }
  exact (conj Hr (conj Hw (conj Hb
           (pool_realloc_same_size_noop _ _ 3 3 Hr Hw Hb)))).
Defined.

(** C9 (fails on the code): after create(10), alloc(3), alloc(3), free(3),
    free(0) the active list is empty, but [pool_destroy] does not return
    true: the node it passes to [free] was freed by the last [pool_free]
    already, and the one node that is still live is never freed. *)
Theorem destroy_frees_a_freed_node :
  session 10 (second_released ++ [Free 0]) = Ok (tt, drained) /\
  reachable drained /\
  pool_print_active drained = Ok ([], drained) /\
  pool_destroy drained = Err InvalidPointer /\
  heap drained
    = {[ O := {| s := 10; start := 0; prev := Some O; next := None |} ]}.
Proof.
  assert (Hs : session 10 (second_released ++ [Free 0]) = Ok (tt, drained))
    by (vm_compute; reflexivity).
  repeat split; try (vm_compute; reflexivity).
  exact (session_reachable _ _ _ Hs).
Qed.

(** C10 (fails on the code): after create(10), alloc(3), alloc(3), free(3),
    free(0) the active list is empty, but the available list is not the
    single block 0 [10]: its head is a dangling pointer, while the node
    that spans the buffer is referenced by neither list. *)
Theorem empty_active_without_whole_block :
  session 10 (second_released ++ [Free 0]) = Ok (tt, drained) /\
  reachable drained /\
  pool_print_active drained = Ok ([], drained) /\
  pool_print_available drained <> Ok ([(0, 10)], drained) /\
  (exists p, pl drained = Some p /\ available p = Some 1%nat) /\
  heap drained !! 1%nat = None.
Proof.
  assert (Hs : session 10 (second_released ++ [Free 0]) = Ok (tt, drained))
    by (vm_compute; reflexivity).
  assert (Hv : pool_print_available drained = Err InvalidPointer)
    by (vm_compute; reflexivity).
  repeat split; try (vm_compute; reflexivity).
  - exact (session_reachable _ _ _ Hs).
  - rewrite Hv. discriminate.
  - eexists. split; vm_compute; reflexivity.
Qed.

(** * More about the code *)

(** ** A node never moves *)

Create HintDb stay.

Lemma store_stay k nd m u m' n z :
  store k nd m = Ok (u, m') ->
  (forall old, heap m !! k = Some old -> start nd = start old) ->
  start_if n z m -> start_if n z m'.
Proof.
  unfold store. intros H Hk [Hb Hz].
  destruct (heap m !! k) as [old|] eqn:Hold; [|discriminate].
  inversion H; subst; clear H. split; [exact Hb|]. cbn. intros x.
  rewrite lookup_insert. case_decide.
  - intros [= <-]. subst k. rewrite (Hk old eq_refl). exact (Hz old Hold).
  - apply Hz.
Qed.

Lemma set_field_stay k f m u m' n z :
  (nd <- load k ;; store k (f nd)) m = Ok (u, m') ->
  (forall nd, start (f nd) = start nd) ->
  start_if n z m -> start_if n z m'.
Proof.
  intros H Hf Ha. apply bind_ok in H as (nd & m1 & Hl & H). cbv beta in H.
  apply load_ok in Hl as [Hn ->].
  eapply store_stay; [exact H | | exact Ha].
  intros old Hold. rewrite Hf. congruence.
Qed.

Lemma set_s_stay k v m u m' n z :
  set_s k v m = Ok (u, m') -> start_if n z m -> start_if n z m'.
Proof. intros H. exact (set_field_stay k _ m u m' n z H (fun _ => eq_refl)). Qed.

Lemma set_prev_stay k v m u m' n z :
  set_prev k v m = Ok (u, m') -> start_if n z m -> start_if n z m'.
Proof. intros H. exact (set_field_stay k _ m u m' n z H (fun _ => eq_refl)). Qed.

Lemma set_next_stay k v m u m' n z :
  set_next k v m = Ok (u, m') -> start_if n z m -> start_if n z m'.
Proof. intros H. exact (set_field_stay k _ m u m' n z H (fun _ => eq_refl)). Qed.

Lemma set_active_stay v m u m' n z :
  set_active v m = Ok (u, m') -> start_if n z m -> start_if n z m'.
Proof.
  unfold set_active. intros H Ha. destruct (pl m); [|discriminate].
  inversion H; subst. exact Ha.
Qed.

Lemma set_available_stay v m u m' n z :
  set_available v m = Ok (u, m') -> start_if n z m -> start_if n z m'.
Proof.
  unfold set_available. intros H Ha. destruct (pl m); [|discriminate].
  inversion H; subst. exact Ha.
Qed.

Lemma buf_write_stay o b m u m' n z :
  buf_write o b m = Ok (u, m') -> start_if n z m -> start_if n z m'.
Proof.
  unfold buf_write. intros H Ha. destruct (pl m); [|discriminate].
  destruct (_ && _); [|discriminate]. inversion H; subst. exact Ha.
Qed.

Lemma free_stay k m u m' n z :
  free k m = Ok (u, m') -> start_if n z m -> start_if n z m'.
Proof.
  unfold free. intros H [Hb Hz]. destruct (heap m !! k); [|discriminate].
  inversion H; subst; clear H. split; [exact Hb|]. cbn. intros x Hx.
  apply lookup_delete_Some in Hx as [_ Hx]. exact (Hz x Hx).
Qed.

(** [malloc] hands out a pointer it has not handed out before. *)
Lemma create_node_stay size begin m k m' n z :
  create_node size begin m = Ok (k, m') -> start_if n z m -> start_if n z m'.
Proof.
  unfold create_node. intros H [Hb Hz].
  apply bind_ok in H as (u & m1 & Ha & H). cbv beta in H.
  apply assert_ok in Ha as [_ ->].
  unfold malloc in H. inversion H; subst; clear H. split; cbn; [lia|].
  intros x. rewrite lookup_insert_ne by lia. apply Hz.
Qed.

#[local] Hint Resolve set_s_stay set_prev_stay set_next_stay set_active_stay
  set_available_stay buf_write_stay free_stay create_node_stay : stay.

Ltac stay_step :=
  match goal with
  | Ha : start_if ?n ?z ?m, H : _ ?m = Ok (_, ?m') |- _ =>
      assert (start_if n z m') by (eauto 3 with stay); clear H
  end.

Ltac stay_run :=
  repeat first [run_step | walk_same | load_step | stay_step | run_case];
  try assumption.

Lemma add_active_stay node m u m' n z :
  add_active node m = Ok (u, m') -> start_if n z m -> start_if n z m'.
Proof. unfold add_active. intros H Ha. stay_run. Qed.

Lemma same_size_available_stay node m u m' n z :
  same_size_available node m = Ok (u, m') -> start_if n z m ->
  start_if n z m'.
Proof. unfold same_size_available. intros H Ha. stay_run. Qed.

Lemma more_size_available_stay node size m u m' n z :
  more_size_available node size m = Ok (u, m') -> start_if n z m ->
  start_if n z m'.
Proof. unfold more_size_available. intros H Ha. stay_run. Qed.

#[local] Hint Resolve add_active_stay same_size_available_stay
  more_size_available_stay : stay.

Lemma pool_alloc_walk_stay fuel size node m r m' n z :
  pool_alloc_walk fuel size node m = Ok (r, m') -> start_if n z m ->
  start_if n z m'.
Proof.
  revert node m. induction fuel as [|fuel IH]; intros node m H Ha;
    destruct node as [k|]; cbn in H; stay_run.
Qed.

#[local] Hint Resolve pool_alloc_walk_stay : stay.

Lemma pool_alloc_stay size m r m' n z :
  pool_alloc size m = Ok (r, m') -> start_if n z m -> start_if n z m'.
Proof. unfold pool_alloc. intros H Ha. stay_run. Qed.

Lemma add_available_stay node m u m' n z :
  add_available node m = Ok (u, m') -> start_if n z m -> start_if n z m'.
Proof. unfold add_available. intros H Ha. stay_run. Qed.

#[local] Hint Resolve pool_alloc_stay add_available_stay : stay.

Lemma pool_free_walk_stay fuel addr node m r m' n z :
  pool_free_walk fuel addr node m = Ok (r, m') -> start_if n z m ->
  start_if n z m'.
Proof.
  revert node m. induction fuel as [|fuel IH]; intros node m H Ha;
    destruct node as [k|]; cbn in H; stay_run.
Qed.

#[local] Hint Resolve pool_free_walk_stay : stay.

Lemma pool_free_stay addr m r m' n z :
  pool_free addr m = Ok (r, m') -> start_if n z m -> start_if n z m'.
Proof. unfold pool_free. intros H Ha. stay_run. Qed.

Lemma find_available_walk_stay fuel addr size node m r m' n z :
  find_available_walk fuel addr size node m = Ok (r, m') ->
  start_if n z m -> start_if n z m'.
Proof.
  revert node m. induction fuel as [|fuel IH]; intros node m H Ha;
    destruct node as [k|]; cbn in H; stay_run.
Qed.

#[local] Hint Resolve pool_free_stay find_available_walk_stay : stay.

Lemma find_available_stay addr size m r m' n z :
  find_available addr size m = Ok (r, m') -> start_if n z m ->
  start_if n z m'.
Proof. unfold find_available. intros H Ha. stay_run. Qed.

Lemma copy_walk_stay fuel node dst i m u m' n z :
  copy_walk fuel node dst i m = Ok (u, m') -> start_if n z m ->
  start_if n z m'.
Proof.
  revert i m. induction fuel as [|fuel IH]; intros i m H Ha; cbn in H;
    stay_run.
Qed.

#[local] Hint Resolve find_available_stay copy_walk_stay : stay.

Lemma pool_realloc_stay addr size m r m' n z :
  pool_realloc addr size m = Ok (r, m') -> start_if n z m -> start_if n z m'.
Proof. unfold pool_realloc, find_active. intros H Ha. stay_run. Qed.

#[local] Hint Resolve pool_realloc_stay : stay.

Lemma do_call_stay c m u m' n z :
  do_call c m = Ok (u, m') -> start_if n z m -> start_if n z m'.
Proof. destruct c; unfold do_call, poke; intros H Ha; stay_run. Qed.

(** ** Every node stays inside the buffer *)

Create HintDb tidy.

Lemma store_tidy cap k nd m u m' :
  store k nd m = Ok (u, m') -> tidy cap m ->
  0 <= start nd -> 0 < s nd -> start nd + s nd <= cap -> tidy cap m'.
Proof.
  unfold store. intros H Hp H0 H1 H2.
  destruct (heap m !! k) as [old|] eqn:Hold; [|discriminate].
  inversion H; subst; clear H. intros j x. cbn.
  rewrite lookup_insert. case_decide.
  - intros [= <-]. subst j. destruct (Hp k old Hold) as (Hb & _).
    repeat split; assumption.
  - apply Hp.
Qed.

Lemma set_prev_tidy cap k v m u m' :
  set_prev k v m = Ok (u, m') -> tidy cap m -> tidy cap m'.
Proof.
  unfold set_prev. intros H Hp.
  apply bind_ok in H as (nd & m1 & Hl & H). cbv beta in H.
  apply load_ok in Hl as [Hn ->]. destruct (Hp k nd Hn) as (_ & ? & ? & ?).
  eapply store_tidy; [exact H | exact Hp | | |]; assumption.
Qed.

Lemma set_next_tidy cap k v m u m' :
  set_next k v m = Ok (u, m') -> tidy cap m -> tidy cap m'.
Proof.
  unfold set_next. intros H Hp.
  apply bind_ok in H as (nd & m1 & Hl & H). cbv beta in H.
  apply load_ok in Hl as [Hn ->]. destruct (Hp k nd Hn) as (_ & ? & ? & ?).
  eapply store_tidy; [exact H | exact Hp | | |]; assumption.
Qed.

Lemma set_s_tidy cap k v m u m' :
  set_s k v m = Ok (u, m') -> tidy cap m -> 0 < v ->
  (forall nd, heap m !! k = Some nd -> start nd + v <= cap) ->
  tidy cap m'.
Proof.
  unfold set_s. intros H Hp Hv Hk.
  apply bind_ok in H as (nd & m1 & Hl & H). cbv beta in H.
  apply load_ok in Hl as [Hn ->]. destruct (Hp k nd Hn) as (_ & ? & ? & ?).
  eapply store_tidy; [exact H | exact Hp | | |]; cbn; auto.
Qed.

Lemma set_active_tidy cap v m u m' :
  set_active v m = Ok (u, m') -> tidy cap m -> tidy cap m'.
Proof.
  unfold set_active. intros H Hp. destruct (pl m); [|discriminate].
  inversion H; subst. exact Hp.
Qed.

Lemma set_available_tidy cap v m u m' :
  set_available v m = Ok (u, m') -> tidy cap m -> tidy cap m'.
Proof.
  unfold set_available. intros H Hp. destruct (pl m); [|discriminate].
  inversion H; subst. exact Hp.
Qed.

Lemma buf_write_tidy cap o b m u m' :
  buf_write o b m = Ok (u, m') -> tidy cap m -> tidy cap m'.
Proof.
  unfold buf_write. intros H Hp. destruct (pl m); [|discriminate].
  destruct (_ && _); [|discriminate]. inversion H; subst. exact Hp.
Qed.

Lemma free_tidy cap k m u m' :
  free k m = Ok (u, m') -> tidy cap m -> tidy cap m'.
Proof.
  unfold free. intros H Hp. destruct (heap m !! k); [|discriminate].
  inversion H; subst; clear H. intros j x. cbn. intros Hj.
  apply lookup_delete_Some in Hj as [_ Hj]. exact (Hp j x Hj).
Qed.

Lemma create_node_size size begin m k m' :
  create_node size begin m = Ok (k, m') -> 0 < size.
Proof.
  unfold create_node. intros H.
  apply bind_ok in H as (u & m1 & Ha & _).
  apply assert_ok in Ha as [Ha _]. apply Z.ltb_lt. exact Ha.
Qed.

Lemma create_node_tidy cap size begin m k m' :
  create_node size begin m = Ok (k, m') -> tidy cap m ->
  0 <= begin -> begin + size <= cap -> tidy cap m'.
Proof.
  intros H Hp H0 H1. pose proof (create_node_size _ _ _ _ _ H) as Hs.
  unfold create_node in H.
  apply bind_ok in H as (u & m1 & Ha & H). cbv beta in H.
  apply assert_ok in Ha as [_ ->].
  unfold malloc in H. inversion H; subst; clear H. intros j x. cbn.
  rewrite lookup_insert. case_decide.
  - intros [= <-]. subst j. cbn. repeat split; try assumption. lia.
  - intros Hj. destruct (Hp j x Hj) as (? & ? & ? & ?).
    repeat split; try assumption. lia.
Qed.

#[local] Hint Resolve set_prev_tidy set_next_tidy set_active_tidy
  set_available_tidy buf_write_tidy free_tidy : tidy.

(** Comparisons that a branch was taken on, as propositions. *)
Ltac bools :=
  match goal with
  | H : (_ =? _) = true |- _ => apply Z.eqb_eq in H
  | H : (_ =? _) = false |- _ => apply Z.eqb_neq in H
  | H : (_ <? _) = true |- _ => apply Z.ltb_lt in H
  | H : (_ <? _) = false |- _ => apply Z.ltb_ge in H
  | H : (_ >? _) = _ |- _ => rewrite Z.gtb_ltb in H
  | H : (_ <=? _) = true |- _ => apply Z.leb_le in H
  | H : (_ <=? _) = false |- _ => apply Z.leb_gt in H
  end.

(** A [load] in a tidy state: the node is in bounds, and from now on it
    is known where it starts. *)
Ltac tidy_load :=
  match goal with
  | Hp : tidy _ ?m, H : load ?k ?m = Ok (?nd, _) |- _ =>
      apply load_ok in H; destruct H as [H ?]; subst;
      let Hb := fresh "Hb" in
      pose proof (Hp _ _ H) as (Hb & ? & ? & ?);
      assert (start_if k (start nd) m)
        by (split; [exact Hb |
                    let y := fresh in let Hy := fresh in
                    intros y Hy; rewrite H in Hy; injection Hy as <-;
                    reflexivity])
  end.

(** What is known about where nodes start goes along to the next state. *)
Ltac carry_anchors m m' :=
  repeat match goal with
  | Ha : start_if ?k ?z m |- _ =>
      first [ assert (start_if k z m') by (eauto 3 with stay) | idtac ];
      clear Ha
  end.

Ltac tidy_side :=
  let x := fresh "x" in
  let Hx := fresh "Hx" in
  intros x Hx;
  repeat match goal with
  | Ha : start_if ?k _ ?m, Hx' : heap ?m !! ?k = Some x |- _ =>
      pose proof (proj2 Ha _ Hx'); clear Ha
  end;
  lia.

Ltac tidy_op :=
  match goal with
  | Hp : tidy ?cap ?m, H : create_node _ _ ?m = Ok (_, ?m') |- _ =>
      pose proof (create_node_size _ _ _ _ _ H);
      assert (tidy cap m')
        by (eapply create_node_tidy; [exact H | exact Hp | lia | lia]);
      carry_anchors m m'; clear H
  | Hp : tidy ?cap ?m, H : set_s _ _ ?m = Ok (_, ?m') |- _ =>
      assert (tidy cap m')
        by (eapply set_s_tidy; [exact H | exact Hp | lia | tidy_side]);
      carry_anchors m m'; clear H
  | Hp : tidy ?cap ?m, H : _ ?m = Ok (_, ?m') |- _ =>
      assert (tidy cap m') by (eauto 3 with tidy);
      carry_anchors m m'; clear H
  end.

Ltac tidy_run :=
  repeat first [run_step | walk_same | tidy_load | bools | tidy_op | run_case];
  try assumption.

Lemma add_active_tidy cap node m u m' :
  add_active node m = Ok (u, m') -> tidy cap m -> tidy cap m'.
Proof. unfold add_active. intros H Hp. tidy_run. Qed.

Lemma same_size_available_tidy cap node m u m' :
  same_size_available node m = Ok (u, m') -> tidy cap m -> tidy cap m'.
Proof. unfold same_size_available. intros H Hp. tidy_run. Qed.

Lemma more_size_available_tidy cap node size m u m' :
  more_size_available node size m = Ok (u, m') -> tidy cap m -> tidy cap m'.
Proof. unfold more_size_available. intros H Hp. tidy_run. Qed.

#[local] Hint Resolve add_active_tidy same_size_available_tidy
  more_size_available_tidy : tidy.

Lemma pool_alloc_walk_tidy cap fuel size node m r m' :
  pool_alloc_walk fuel size node m = Ok (r, m') -> tidy cap m -> tidy cap m'.
Proof.
  revert node m. induction fuel as [|fuel IH]; intros node m H Hp;
    destruct node as [k|]; cbn in H; tidy_run.
Qed.

#[local] Hint Resolve pool_alloc_walk_tidy : tidy.

Lemma pool_alloc_tidy cap size m r m' :
  pool_alloc size m = Ok (r, m') -> tidy cap m -> tidy cap m'.
Proof. unfold pool_alloc. intros H Hp. tidy_run. Qed.

Lemma add_available_tidy cap node m u m' :
  add_available node m = Ok (u, m') -> tidy cap m -> tidy cap m'.
Proof. unfold add_available. intros H Hp. tidy_run. Qed.

#[local] Hint Resolve pool_alloc_tidy add_available_tidy : tidy.

Lemma pool_free_walk_tidy cap fuel addr node m r m' :
  pool_free_walk fuel addr node m = Ok (r, m') -> tidy cap m -> tidy cap m'.
Proof.
  revert node m. induction fuel as [|fuel IH]; intros node m H Hp;
    destruct node as [k|]; cbn in H; tidy_run.
Qed.

#[local] Hint Resolve pool_free_walk_tidy : tidy.

Lemma pool_free_tidy cap addr m r m' :
  pool_free addr m = Ok (r, m') -> tidy cap m -> tidy cap m'.
Proof. unfold pool_free. intros H Hp. tidy_run. Qed.

Lemma find_available_walk_tidy cap fuel addr size node m r m' :
  find_available_walk fuel addr size node m = Ok (r, m') -> tidy cap m ->
  tidy cap m'.
Proof.
  revert node m. induction fuel as [|fuel IH]; intros node m H Hp;
    destruct node as [k|]; cbn in H; tidy_run.
Qed.

#[local] Hint Resolve pool_free_tidy find_available_walk_tidy : tidy.

Lemma find_available_tidy cap addr size m r m' :
  find_available addr size m = Ok (r, m') -> tidy cap m -> tidy cap m'.
Proof. unfold find_available. intros H Hp. tidy_run. Qed.

Lemma copy_walk_tidy cap fuel node dst i m u m' :
  copy_walk fuel node dst i m = Ok (u, m') -> tidy cap m -> tidy cap m'.
Proof.
  revert i m. induction fuel as [|fuel IH]; intros i m H Hp; cbn in H;
    tidy_run.
Qed.

#[local] Hint Resolve find_available_tidy copy_walk_tidy : tidy.

(** The node that [find_active] returns starts at the address asked for. *)
Lemma find_active_walk_found fuel addr node m n m' :
  find_active_walk fuel addr node m = Ok (Some n, m') ->
  m' = m /\ exists nd, heap m !! n = Some nd /\ start nd = addr.
Proof.
  revert node. induction fuel as [|fuel IH]; intros node H;
    destruct node as [k|]; cbn in H; try discriminate H.
  apply bind_ok in H as (nd & m1 & Hl & H). cbv beta in H.
  apply load_ok in Hl as [Hn ->].
  destruct (start nd =? addr) eqn:E.
  - apply ret_ok in H as [H ->]. injection H as <-.
    apply Z.eqb_eq in E. split; [reflexivity|]. exists nd. auto.
  - exact (IH _ H).
Qed.

Lemma find_active_found addr m n m' :
  find_active addr m = Ok (Some n, m') ->
  m' = m /\ exists nd, heap m !! n = Some nd /\ start nd = addr.
Proof.
  unfold find_active. intros H.
  apply bind_ok in H as (p & m1 & Hg & H). cbv beta in H.
  apply get_pool_ok in Hg as [_ ->].
  apply bind_ok in H as (fuel & m1 & Hs & H). cbv beta in H.
  apply steps_ok in Hs as [_ ->].
  exact (find_active_walk_found _ _ _ _ _ _ H).
Qed.

(** The room that [find_available] hands over lies inside the buffer. *)
Lemma find_available_walk_fits cap fuel addr size node m g m' :
  find_available_walk fuel addr size node m = Ok (Some g, m') ->
  tidy cap m -> addr + size <= cap.
Proof.
  intros H Hp. revert node H.
  induction fuel as [|fuel IH]; intros node H;
    destruct node as [k|]; cbn in H; try discriminate H.
  apply bind_ok in H as (nd & m1 & Hl & H). cbv beta in H.
  apply load_ok in Hl as [Hn ->]. destruct (Hp k nd Hn) as (_ & ? & ? & ?).
  destruct (start nd <=? addr) eqn:E1;
    [|apply ret_ok in H as [H _]; discriminate H].
  destruct (start nd =? addr) eqn:E2; [|exact (IH _ H)].
  destruct (s nd <? size) eqn:E3;
    [apply ret_ok in H as [H _]; discriminate H|].
  apply Z.eqb_eq in E2. apply Z.ltb_ge in E3. lia.
Qed.

Lemma find_available_fits cap addr size m g m' :
  find_available addr size m = Ok (Some g, m') ->
  tidy cap m -> addr + size <= cap.
Proof.
  unfold find_available. intros H Hp.
  apply bind_ok in H as (u & m1 & Ha & H). cbv beta in H.
  apply assert_ok in Ha as [_ ->].
  apply bind_ok in H as (p & m1 & Hg & H). cbv beta in H.
  apply get_pool_ok in Hg as [_ ->].
  apply bind_ok in H as (fuel & m1 & Hs & H). cbv beta in H.
  apply steps_ok in Hs as [_ ->].
  exact (find_available_walk_fits _ _ _ _ _ _ _ _ H Hp).
Qed.

Lemma pool_realloc_tidy cap addr size m r m' :
  pool_realloc addr size m = Ok (r, m') -> tidy cap m -> tidy cap m'.
Proof.
  unfold pool_realloc. intros H Hp.
  apply bind_ok in H as (u & m1 & Ha & H). cbv beta in H.
  apply assert_ok in Ha as [Hsz ->]. apply Z.ltb_lt in Hsz.
  apply bind_ok in H as (found & m1 & Hf & H). cbv beta in H.
  destruct found as [node|].
  2:{ apply find_active_same in Hf as ->. apply ret_ok in H as [_ ->].
      exact Hp. }
  apply find_active_found in Hf as (-> & nd & Hn & Hst).
  rewrite (bind_run _ _ _ _ _ (load_run _ _ _ Hn)) in H.
  destruct (Hp node nd Hn) as (Hb & ? & ? & ?).
  assert (Hanchor : start_if node (start nd) m).
  { split; [exact Hb|]. intros y Hy. rewrite Hn in Hy.
    injection Hy as <-. reflexivity. }
  destruct (s nd =? size) eqn:E1.
  { apply ret_ok in H as [_ ->]. exact Hp. }
  destruct (s nd >? size) eqn:E2.
  { tidy_run. }
  apply bind_ok in H as (more & m1 & Hi & H). cbv beta in H.
  apply int_of_ok in Hi as [-> ->].
  apply bind_ok in H as (grabbed & m1 & Hg & H). cbv beta in H.
  destruct grabbed as [g|].
  - pose proof (find_available_fits _ _ _ _ _ _ Hg Hp) as Hfit.
    tidy_run.
  - tidy_run.
Qed.

#[local] Hint Resolve pool_realloc_tidy : tidy.

Lemma do_call_tidy cap c m u m' :
  do_call c m = Ok (u, m') -> tidy cap m -> tidy cap m'.
Proof. destruct c; unfold do_call, poke; intros H Hp; tidy_run. Qed.

Lemma do_calls_tidy cap cs m u m' :
  do_calls cs m = Ok (u, m') -> tidy cap m -> tidy cap m'.
Proof.
  revert m. induction cs as [|c cs IH]; intros m H Hp; cbn in H.
  - apply ret_ok in H as [_ ->]. exact Hp.
  - apply bind_ok in H as (v & m1 & Hc & H). cbv beta in H.
    exact (IH _ H (do_call_tidy _ _ _ _ _ Hc Hp)).
Qed.

Lemma pool_create_tidy size u m :
  pool_create size boot = Ok (u, m) -> tidy size m.
Proof.
  unfold pool_create. intros H.
  apply bind_ok in H as (v & m1 & Ha & H). cbv beta in H.
  apply assert_ok in Ha as [Hsz ->]. apply Z.ltb_lt in Hsz.
  apply bind_ok in H as (node & m1 & Hc & H). cbv beta in H.
  assert (Hp : tidy size m1).
  { eapply create_node_tidy; [exact Hc | | lia | lia].
    intros j x Hj. cbn in Hj. rewrite lookup_empty in Hj. discriminate Hj. }
  inversion H; subst. exact Hp.
Qed.

(** ** What happens to the buffer *)

Create HintDb keep.

Section BufferHas.

Variable P : list byte -> Prop.

Lemma store_keeps k nd m u m' :
  store k nd m = Ok (u, m') -> buffer_has P m -> buffer_has P m'.
Proof.
  unfold store. intros H Hb. destruct (heap m !! k); [|discriminate].
  inversion H; subst. exact Hb.
Qed.

Lemma set_s_keeps k v m u m' :
  set_s k v m = Ok (u, m') -> buffer_has P m -> buffer_has P m'.
Proof.
  unfold set_s. intros H Hb. apply bind_ok in H as (nd & m1 & Hl & H).
  apply load_ok in Hl as [_ ->]. exact (store_keeps _ _ _ _ _ H Hb).
Qed.

Lemma set_prev_keeps k v m u m' :
  set_prev k v m = Ok (u, m') -> buffer_has P m -> buffer_has P m'.
Proof.
  unfold set_prev. intros H Hb. apply bind_ok in H as (nd & m1 & Hl & H).
  apply load_ok in Hl as [_ ->]. exact (store_keeps _ _ _ _ _ H Hb).
Qed.

Lemma set_next_keeps k v m u m' :
  set_next k v m = Ok (u, m') -> buffer_has P m -> buffer_has P m'.
Proof.
  unfold set_next. intros H Hb. apply bind_ok in H as (nd & m1 & Hl & H).
  apply load_ok in Hl as [_ ->]. exact (store_keeps _ _ _ _ _ H Hb).
Qed.

Lemma set_active_keeps v m u m' :
  set_active v m = Ok (u, m') -> buffer_has P m -> buffer_has P m'.
Proof.
  unfold set_active. intros H (p & Hp & Hb). rewrite Hp in H.
  inversion H; subst. eexists. split; [reflexivity | exact Hb].
Qed.

Lemma set_available_keeps v m u m' :
  set_available v m = Ok (u, m') -> buffer_has P m -> buffer_has P m'.
Proof.
  unfold set_available. intros H (p & Hp & Hb). rewrite Hp in H.
  inversion H; subst. eexists. split; [reflexivity | exact Hb].
Qed.

Lemma free_keeps k m u m' :
  free k m = Ok (u, m') -> buffer_has P m -> buffer_has P m'.
Proof.
  unfold free. intros H Hb. destruct (heap m !! k); [|discriminate].
  inversion H; subst. exact Hb.
Qed.

Lemma create_node_keeps size begin m k m' :
  create_node size begin m = Ok (k, m') -> buffer_has P m -> buffer_has P m'.
Proof.
  unfold create_node. intros H Hb. apply bind_ok in H as (u & m1 & Ha & H).
  apply assert_ok in Ha as [_ ->]. unfold malloc in H.
  inversion H; subst. exact Hb.
Qed.

(** A store into the buffer keeps what stores cannot break. *)
Lemma buf_write_keeps o b m u m' :
  (forall l i c, P l -> P (<[i:=c]> l)) ->
  buf_write o b m = Ok (u, m') -> buffer_has P m -> buffer_has P m'.
Proof.
  unfold buf_write. intros HP H (p & Hp & Hb). rewrite Hp in H.
  destruct (_ && _); [|discriminate]. inversion H; subst.
  eexists. split; [reflexivity|]. cbn. apply HP. exact Hb.
Qed.

End BufferHas.

#[local] Hint Resolve set_s_keeps set_prev_keeps set_next_keeps
  set_active_keeps set_available_keeps free_keeps create_node_keeps
  buf_write_keeps : keep.

Ltac keep_step :=
  match goal with
  | Hb : buffer_has ?P ?m, H : _ ?m = Ok (_, ?m') |- _ =>
      assert (buffer_has P m') by (eauto 3 with keep); clear H
  end.

Ltac keep_run :=
  repeat first [run_step | walk_same | load_step | keep_step | run_case];
  try assumption.

Lemma add_active_keeps P node m u m' :
  add_active node m = Ok (u, m') -> buffer_has P m -> buffer_has P m'.
Proof. unfold add_active. intros H Hb. keep_run. Qed.

Lemma same_size_available_keeps P node m u m' :
  same_size_available node m = Ok (u, m') -> buffer_has P m ->
  buffer_has P m'.
Proof. unfold same_size_available. intros H Hb. keep_run. Qed.

Lemma more_size_available_keeps P node size m u m' :
  more_size_available node size m = Ok (u, m') -> buffer_has P m ->
  buffer_has P m'.
Proof. unfold more_size_available. intros H Hb. keep_run. Qed.

#[local] Hint Resolve add_active_keeps same_size_available_keeps
  more_size_available_keeps : keep.

Lemma pool_alloc_walk_keeps P fuel size node m r m' :
  pool_alloc_walk fuel size node m = Ok (r, m') -> buffer_has P m ->
  buffer_has P m'.
Proof.
  revert node m. induction fuel as [|fuel IH]; intros node m H Hb;
    destruct node as [k|]; cbn in H; keep_run.
Qed.

#[local] Hint Resolve pool_alloc_walk_keeps : keep.

Lemma pool_alloc_keeps P size m r m' :
  pool_alloc size m = Ok (r, m') -> buffer_has P m -> buffer_has P m'.
Proof. unfold pool_alloc. intros H Hb. keep_run. Qed.

Lemma add_available_keeps P node m u m' :
  add_available node m = Ok (u, m') -> buffer_has P m -> buffer_has P m'.
Proof. unfold add_available. intros H Hb. keep_run. Qed.

#[local] Hint Resolve pool_alloc_keeps add_available_keeps : keep.

Lemma pool_free_walk_keeps P fuel addr node m r m' :
  pool_free_walk fuel addr node m = Ok (r, m') -> buffer_has P m ->
  buffer_has P m'.
Proof.
  revert node m. induction fuel as [|fuel IH]; intros node m H Hb;
    destruct node as [k|]; cbn in H; keep_run.
Qed.

#[local] Hint Resolve pool_free_walk_keeps : keep.

Lemma pool_free_keeps P addr m r m' :
  pool_free addr m = Ok (r, m') -> buffer_has P m -> buffer_has P m'.
Proof. unfold pool_free. intros H Hb. keep_run. Qed.

Lemma find_available_walk_keeps P fuel addr size node m r m' :
  find_available_walk fuel addr size node m = Ok (r, m') ->
  buffer_has P m -> buffer_has P m'.
Proof.
  revert node m. induction fuel as [|fuel IH]; intros node m H Hb;
    destruct node as [k|]; cbn in H; keep_run.
Qed.

#[local] Hint Resolve pool_free_keeps find_available_walk_keeps : keep.

Lemma find_available_keeps P addr size m r m' :
  find_available addr size m = Ok (r, m') -> buffer_has P m ->
  buffer_has P m'.
Proof. unfold find_available. intros H Hb. keep_run. Qed.

Lemma copy_walk_keeps P fuel node dst i m u m' :
  (forall l j c, P l -> P (<[j:=c]> l)) ->
  copy_walk fuel node dst i m = Ok (u, m') -> buffer_has P m ->
  buffer_has P m'.
Proof.
  intros HP. revert i m. induction fuel as [|fuel IH]; intros i m H Hb;
    cbn in H; keep_run.
Qed.

#[local] Hint Resolve find_available_keeps copy_walk_keeps : keep.

Lemma pool_realloc_keeps P addr size m r m' :
  (forall l j c, P l -> P (<[j:=c]> l)) ->
  pool_realloc addr size m = Ok (r, m') -> buffer_has P m ->
  buffer_has P m'.
Proof. unfold pool_realloc, find_active. intros HP H Hb. keep_run. Qed.

#[local] Hint Resolve pool_realloc_keeps : keep.

Lemma do_call_keeps P c m u m' :
  (forall l j b, P l -> P (<[j:=b]> l)) ->
  do_call c m = Ok (u, m') -> buffer_has P m -> buffer_has P m'.
Proof. destruct c; unfold do_call, poke; intros HP H Hb; keep_run. Qed.

Lemma do_calls_keeps P cs m u m' :
  (forall l j b, P l -> P (<[j:=b]> l)) ->
  do_calls cs m = Ok (u, m') -> buffer_has P m -> buffer_has P m'.
Proof.
  intros HP. revert m. induction cs as [|c cs IH]; intros m H Hb; cbn in H.
  - apply ret_ok in H as [_ ->]. exact Hb.
  - apply bind_ok in H as (v & m1 & Hc & H). cbv beta in H.
    exact (IH _ H (do_call_keeps _ _ _ _ _ HP Hc Hb)).
Qed.

(** ** The size of the node an allocation returns *)

Create HintDb girth.

Lemma set_field_girth k f m u m' n v :
  (nd <- load k ;; store k (f nd)) m = Ok (u, m') ->
  (forall nd, s (f nd) = s nd) ->
  size_is n v m -> size_is n v m'.
Proof.
  intros H Hf (old & Hn & Hv).
  apply bind_ok in H as (nd & m1 & Hl & H). cbv beta in H.
  apply load_ok in Hl as [Hk ->]. unfold store in H. rewrite Hk in H.
  inversion H; subst; clear H. unfold size_is. cbn.
  rewrite lookup_insert. case_decide.
  - subst k. exists (f nd). split; [reflexivity|]. rewrite Hf. congruence.
  - exists old. split; [exact Hn | reflexivity].
Qed.

Lemma set_prev_girth k w m u m' n v :
  set_prev k w m = Ok (u, m') -> size_is n v m -> size_is n v m'.
Proof. intros H. exact (set_field_girth k _ m u m' n v H (fun _ => eq_refl)). Qed.

Lemma set_next_girth k w m u m' n v :
  set_next k w m = Ok (u, m') -> size_is n v m -> size_is n v m'.
Proof. intros H. exact (set_field_girth k _ m u m' n v H (fun _ => eq_refl)). Qed.

Lemma set_active_girth w m u m' n v :
  set_active w m = Ok (u, m') -> size_is n v m -> size_is n v m'.
Proof.
  unfold set_active. intros H Ha. destruct (pl m); [|discriminate].
  inversion H; subst. exact Ha.
Qed.

Lemma set_available_girth w m u m' n v :
  set_available w m = Ok (u, m') -> size_is n v m -> size_is n v m'.
Proof.
  unfold set_available. intros H Ha. destruct (pl m); [|discriminate].
  inversion H; subst. exact Ha.
Qed.

#[local] Hint Resolve set_prev_girth set_next_girth set_active_girth
  set_available_girth : girth.

Ltac girth_step :=
  match goal with
  | Ha : size_is ?n ?v ?m, H : _ ?m = Ok (_, ?m') |- _ =>
      assert (size_is n v m') by (eauto 3 with girth); clear H
  end.

Ltac girth_run :=
  repeat first [run_step | walk_same | load_step | girth_step | run_case];
  try assumption.

Lemma add_active_girth node m u m' n v :
  add_active node m = Ok (u, m') -> size_is n v m -> size_is n v m'.
Proof. unfold add_active. intros H Ha. girth_run. Qed.

Lemma same_size_available_girth node m u m' n v :
  same_size_available node m = Ok (u, m') -> size_is n v m ->
  size_is n v m'.
Proof. unfold same_size_available. intros H Ha. girth_run. Qed.

(** [set_s] leaves the size it was given. *)
Lemma set_s_sets k v m u m' : set_s k v m = Ok (u, m') -> size_is k v m'.
Proof.
  unfold set_s. intros H.
  apply bind_ok in H as (nd & m1 & Hl & H). cbv beta in H.
  apply load_ok in Hl as [Hk ->]. unfold store in H. rewrite Hk in H.
  inversion H; subst; clear H. eexists. cbn.
  rewrite lookup_insert_eq. split; reflexivity.
Qed.

(** [more_size_available] cuts the node down to the size asked for. *)
Lemma more_size_available_sets node size m u m' :
  more_size_available node size m = Ok (u, m') -> size_is node size m'.
Proof.
  unfold more_size_available. intros H.
  do 6 (apply bind_ok in H as (? & ? & _ & H); cbv beta in H).
  exact (set_s_sets _ _ _ _ _ H).
Qed.

(** A successful [pool_alloc] leaves a live node that starts at the
    offset returned and has exactly the size asked for. *)
Lemma pool_alloc_walk_shape fuel size node m o m' :
  pool_alloc_walk fuel size node m = Ok (Some o, m') ->
  exists k nd, heap m' !! k = Some nd /\ start nd = o /\ s nd = size.
Proof.
  revert node. induction fuel as [|fuel IH]; intros node H;
    destruct node as [k|]; cbn in H; try discriminate H.
  apply bind_ok in H as (nd & m1 & Hl & H). cbv beta in H.
  apply load_ok in Hl as [Hn ->].
  destruct (s nd <? size) eqn:E; [exact (IH _ H)|].
  apply bind_ok in H as (u & m1 & Hcarve & H). cbv beta in H.
  apply bind_ok in H as (u' & m2 & Hadd & H). cbv beta in H.
  apply bind_ok in H as (nd' & m3 & Hl & H). cbv beta in H.
  apply load_ok in Hl as [Hn' ->]. apply ret_ok in H as [H ->].
  injection H as ->.
  assert (Hsz : size_is k size m1).
  { destruct (s nd =? size) eqn:E1.
    - apply Z.eqb_eq in E1.
      eapply same_size_available_girth; [exact Hcarve|].
      exists nd. auto.
    - destruct (s nd >? size) eqn:E2.
      + exact (more_size_available_sets _ _ _ _ _ Hcarve).
      + rewrite Z.gtb_ltb in E2. apply Z.ltb_ge in E2, E.
        apply Z.eqb_neq in E1. lia. }
  destruct (add_active_girth _ _ _ _ _ _ Hadd Hsz) as (x & Hx & Hs).
  rewrite Hn' in Hx. injection Hx as <-.
  exists k, nd'. auto.
Qed.

Lemma pool_alloc_shape size m o m' :
  pool_alloc size m = Ok (Some o, m') ->
  exists k nd, heap m' !! k = Some nd /\ start nd = o /\ s nd = size.
Proof.
  unfold pool_alloc. intros H.
  apply bind_ok in H as (u & m1 & Ha & H). cbv beta in H.
  apply assert_ok in Ha as [_ ->].
  apply bind_ok in H as (p & m1 & Hg & H). cbv beta in H.
  apply get_pool_ok in Hg as [_ ->].
  destruct (available p); [|apply ret_ok in H as [H _]; discriminate H].
  apply bind_ok in H as (fuel & m1 & Hs & H). cbv beta in H.
  apply steps_ok in Hs as [_ ->].
  exact (pool_alloc_walk_shape _ _ _ _ _ _ H).
Qed.

(** ** Listings of a tidy state *)

Lemma print_walk_inside cap fuel node m l m' :
  tidy cap m -> print_walk fuel node m = Ok (l, m') ->
  Forall (block_inside cap) l.
Proof.
  intros Hp. revert node l m'.
  induction fuel as [|fuel IH]; intros node l m' H;
    destruct node as [k|]; cbn in H; try discriminate H.
  - apply ret_ok in H as [-> _]. constructor.
  - apply bind_ok in H as (nd & m1 & Hl & H). cbv beta in H.
    apply load_ok in Hl as [Hn ->].
    apply bind_ok in H as (rest & m2 & Hrest & H). cbv beta in H.
    apply ret_ok in H as [-> _]. constructor.
    + destruct (Hp k nd Hn) as (_ & ? & ? & ?). repeat split; assumption.
    + pose proof (print_walk_same _ _ _ _ _ Hrest) as ->.
      exact (IH _ _ _ Hrest).
  - apply ret_ok in H as [-> _]. constructor.
Qed.

(** * More about the code, continued *)

Lemma assert_run b m : b = true -> assert b m = Ok (tt, m).
Proof. intros ->. reflexivity. Qed.

Lemma int_of_run z m :
  INT_MIN <= z <= INT_MAX -> int_of z m = Ok (z, m).
Proof.
  intros [H1 H2]. unfold int_of.
  apply Z.leb_le in H1, H2. rewrite H1, H2. reflexivity.
Qed.

(** ** The faults a call can end in *)

Lemma bind_err {A B} (c : M A) (k : A -> M B) m e :
  bind c k m = Err e ->
  c m = Err e \/ exists a m1, c m = Ok (a, m1) /\ k a m1 = Err e.
Proof.
  unfold bind. destruct (c m) as [[a m1]|f].
  - intros H. right. exists a, m1. auto.
  - intros [= ->]. left. reflexivity.
Qed.

Lemma load_err n m e : load n m = Err e -> e = InvalidPointer.
Proof. unfold load. destruct (heap m !! n); [discriminate|]. congruence. Qed.

Lemma store_err n nd m e : store n nd m = Err e -> e = InvalidPointer.
Proof. unfold store. destruct (heap m !! n); [discriminate|]. congruence. Qed.

Lemma set_field_err k (f : llnode -> llnode) m e :
  (nd <- load k ;; store k (f nd)) m = Err e -> e = InvalidPointer.
Proof.
  intros H. apply bind_err in H as [H | (nd & m1 & _ & H)].
  - exact (load_err _ _ _ H).
  - exact (store_err _ _ _ _ H).
Qed.

Lemma set_s_err k v m e : set_s k v m = Err e -> e = InvalidPointer.
Proof. exact (set_field_err k _ m e). Qed.

Lemma set_prev_err k v m e : set_prev k v m = Err e -> e = InvalidPointer.
Proof. exact (set_field_err k _ m e). Qed.

Lemma set_next_err k v m e : set_next k v m = Err e -> e = InvalidPointer.
Proof. exact (set_field_err k _ m e). Qed.

Lemma free_err n m e : free n m = Err e -> e = InvalidPointer.
Proof. unfold free. destruct (heap m !! n); [discriminate|]. congruence. Qed.

Lemma get_pool_err m e : get_pool m = Err e -> e = InvalidPointer.
Proof. unfold get_pool. destruct (pl m); [discriminate|]. congruence. Qed.

Lemma set_active_err v m e : set_active v m = Err e -> e = InvalidPointer.
Proof. unfold set_active. destruct (pl m); [discriminate|]. congruence. Qed.

Lemma set_available_err v m e :
  set_available v m = Err e -> e = InvalidPointer.
Proof. unfold set_available. destruct (pl m); [discriminate|]. congruence. Qed.

Lemma assert_err b m e : assert b m = Err e -> b = false.
Proof. destruct b; [discriminate | reflexivity]. Qed.

Lemma int_of_err z m e : int_of z m = Err e -> ~ (INT_MIN <= z <= INT_MAX).
Proof.
  unfold int_of. intros H [H1 H2]. apply Z.leb_le in H1, H2.
  rewrite H1, H2 in H. discriminate H.
Qed.

Lemma create_node_err size begin m e :
  create_node size begin m = Err e -> ~ 0 < size.
Proof.
  unfold create_node. intros H Hs. apply Z.ltb_lt in Hs.
  unfold bind, assert in H. rewrite Hs in H. discriminate H.
Qed.

(** An access to the buffer fails only outside of it. *)
Lemma buf_read_err cap o m e :
  buf_read o m = Err e -> buffer_has (sized cap) m -> ~ (0 <= o < cap).
Proof.
  unfold buf_read, bind, get_pool. intros H (p & Hp & Hl) [H0 H1].
  rewrite Hp in H. apply Z.ltb_ge in H0. rewrite H0 in H.
  destruct (h p !! Z.to_nat o) eqn:E; [discriminate H|].
  apply lookup_ge_None in E. unfold sized in Hl. lia.
Qed.

Lemma buf_write_err cap o b m e :
  buf_write o b m = Err e -> buffer_has (sized cap) m -> ~ (0 <= o < cap).
Proof.
  unfold buf_write. intros H (p & Hp & Hl) [H0 H1]. rewrite Hp in H.
  unfold sized in Hl. rewrite Hl in H.
  apply Z.leb_le in H0. apply Z.ltb_lt in H1. rewrite H0, H1 in H.
  discriminate H.
Qed.

Lemma sized_insert cap (l : list byte) (j : nat) (c : byte) :
  sized cap l -> sized cap (<[j:=c]> l).
Proof. unfold sized. rewrite length_insert. auto. Qed.

Create HintDb fault.

Ltac benign_now := solve [left; reflexivity | right; reflexivity].

(** The buffer goes along to the next state, like what is known about
    the nodes. *)
Ltac carry_buffer :=
  match goal with
  | Hb : buffer_has ?P ?m, H : _ ?m = Ok (_, ?m') |- _ =>
      lazymatch goal with
      | _ : buffer_has P m' |- _ => fail
      | _ => assert (buffer_has P m') by (eauto 3 with keep)
      end
  end.

(** Where a computation that faulted has faulted. *)
Ltac fault_step :=
  match goal with
  | H : bind _ _ _ = Err _ |- _ =>
      apply bind_err in H; destruct H as [H | (? & ? & ? & H)];
      cbv beta in H
  | H : ret _ _ = Err _ |- _ => discriminate H
  | H : steps _ = Err _ |- _ => discriminate H
  | H : throw _ _ = Err _ |- _ => inversion H; subst; benign_now
  | H : Err _ = Err _ |- _ => inversion H; subst; benign_now
  | H : load _ _ = Err _ |- _ => apply load_err in H; subst; benign_now
  | H : set_s _ _ _ = Err _ |- _ => apply set_s_err in H; subst; benign_now
  | H : set_prev _ _ _ = Err _ |- _ =>
      apply set_prev_err in H; subst; benign_now
  | H : set_next _ _ _ = Err _ |- _ =>
      apply set_next_err in H; subst; benign_now
  | H : free _ _ = Err _ |- _ => apply free_err in H; subst; benign_now
  | H : get_pool _ = Err _ |- _ => apply get_pool_err in H; subst; benign_now
  | H : set_active _ _ = Err _ |- _ =>
      apply set_active_err in H; subst; benign_now
  | H : set_available _ _ = Err _ |- _ =>
      apply set_available_err in H; subst; benign_now
  | H : assert _ _ = Err _ |- _ =>
      apply assert_err in H; repeat bools; exfalso; lia
  | H : int_of _ _ = Err _ |- _ =>
      apply int_of_err in H; exfalso; apply H;
      unfold INT_MIN, INT_MAX in *; lia
  | H : create_node _ _ _ = Err _ |- _ =>
      apply create_node_err in H; exfalso; apply H; lia
  | H : (match ?x with _ => _ end) _ = Err _ |- _ => destruct x eqn:?
  | H : (if ?x then _ else _) _ = Err _ |- _ => destruct x eqn:?
  end.

Ltac fault_call :=
  match goal with
  | H : _ = Err ?e |- benign ?e => solve [eauto 4 with fault]
  end.

Ltac fault_run :=
  repeat first [ run_step | walk_same | tidy_load | bools | carry_buffer
               | tidy_op | run_case | load_step | fault_step | fault_call ].

Lemma add_active_walk_fault fuel node curr m e :
  add_active_walk fuel node curr m = Err e -> benign e.
Proof.
  revert curr. induction fuel as [|fuel IH]; intros curr H; cbn in H;
    fault_run.
Qed.

Lemma add_available_walk_fault fuel node curr m e :
  add_available_walk fuel node curr m = Err e -> benign e.
Proof.
  revert curr. induction fuel as [|fuel IH]; intros curr H; cbn in H;
    fault_run.
Qed.

Lemma find_active_walk_fault fuel addr node m e :
  find_active_walk fuel addr node m = Err e -> benign e.
Proof.
  revert node. induction fuel as [|fuel IH]; intros node H;
    destruct node as [k|]; cbn in H; fault_run.
Qed.

#[local] Hint Resolve add_active_walk_fault add_available_walk_fault
  find_active_walk_fault : fault.
#[local] Hint Extern 1 (0 < _) => lia : fault.

Lemma add_active_fault node m e : add_active node m = Err e -> benign e.
Proof. unfold add_active. intros H. fault_run. Qed.

Lemma same_size_available_fault node m e :
  same_size_available node m = Err e -> benign e.
Proof. unfold same_size_available. intros H. fault_run. Qed.

(** Cutting a node in two faults on a bad pointer only, as long as the
    node is longer than the piece asked for. *)
Lemma more_size_available_fault cap node size m e :
  more_size_available node size m = Err e ->
  tidy cap m -> cap <= INT_MAX -> 0 < size ->
  (forall nd, heap m !! node = Some nd -> size < s nd) ->
  benign e.
Proof.
  unfold more_size_available. intros H Hp Hmax Hs Hlong.
  apply bind_err in H as [H | (u & m1 & Ha & H)]; [fault_run|].
  cbv beta in H. apply assert_ok in Ha as [_ ->].
  apply bind_err in H as [H | (nd & m1 & Hl & H)]; [fault_run|].
  cbv beta in H. pose proof Hl as Hl'. apply load_ok in Hl' as [Hn _].
  pose proof (Hlong nd Hn). fault_run.
Qed.

#[local] Hint Resolve add_active_fault same_size_available_fault : fault.

Ltac fault_more :=
  match goal with
  | Hp : tidy ?cap ?m, H : more_size_available ?k ?size ?m = Err ?e |- _ =>
      eapply (more_size_available_fault cap k size m e H Hp);
      [ assumption | lia
      | let x := fresh "x" in
        let Hx := fresh "Hx" in
        intros x Hx;
        match goal with
        | Hn : heap m !! k = Some _ |- _ =>
            rewrite Hn in Hx; injection Hx as <-
        end; lia ]
  end.

Ltac fault_run ::=
  repeat first [ run_step | walk_same | tidy_load | bools | carry_buffer
               | tidy_op | run_case | load_step | fault_step | fault_more
               | fault_call ].

Lemma pool_alloc_walk_fault cap fuel size node m e :
  pool_alloc_walk fuel size node m = Err e ->
  tidy cap m -> cap <= INT_MAX -> 0 < size -> benign e.
Proof.
  intros H Hp Hmax Hs. revert node m H Hp.
  induction fuel as [|fuel IH]; intros node m H Hp;
    destruct node as [k|]; cbn in H; fault_run.
Qed.

#[local] Hint Resolve pool_alloc_walk_fault : fault.

Lemma pool_alloc_fault cap size m e :
  pool_alloc size m = Err e ->
  tidy cap m -> cap <= INT_MAX -> 0 < size -> benign e.
Proof. unfold pool_alloc. intros H Hp Hmax Hs. fault_run. Qed.

Lemma add_available_fault cap node m e :
  add_available node m = Err e -> tidy cap m -> cap <= INT_MAX -> benign e.
Proof. unfold add_available. intros H Hp Hmax. fault_run. Qed.

#[local] Hint Resolve pool_alloc_fault add_available_fault : fault.

Lemma pool_free_walk_fault cap fuel addr node m e :
  pool_free_walk fuel addr node m = Err e ->
  tidy cap m -> cap <= INT_MAX -> benign e.
Proof.
  intros H Hp Hmax. revert node m H Hp.
  induction fuel as [|fuel IH]; intros node m H Hp;
    destruct node as [k|]; cbn in H; fault_run.
Qed.

#[local] Hint Resolve pool_free_walk_fault : fault.

Lemma pool_free_fault cap addr m e :
  pool_free addr m = Err e -> tidy cap m -> cap <= INT_MAX -> benign e.
Proof. unfold pool_free. intros H Hp Hmax. fault_run. Qed.

Lemma find_active_fault addr m e : find_active addr m = Err e -> benign e.
Proof. unfold find_active. intros H. fault_run. Qed.

Lemma find_available_walk_fault cap fuel addr size node m e :
  find_available_walk fuel addr size node m = Err e ->
  tidy cap m -> cap <= INT_MAX -> 0 < size -> benign e.
Proof.
  intros H Hp Hmax Hs. revert node m H Hp.
  induction fuel as [|fuel IH]; intros node m H Hp;
    destruct node as [k|]; cbn in H; fault_run.
Qed.

#[local] Hint Resolve pool_free_fault find_active_fault
  find_available_walk_fault : fault.

Lemma find_available_fault cap addr size m e :
  find_available addr size m = Err e ->
  tidy cap m -> cap <= INT_MAX -> 0 < size -> benign e.
Proof. unfold find_available. intros H Hp Hmax Hs. fault_run. Qed.

#[local] Hint Resolve find_available_fault : fault.

(** ** No node but the one allocated grows in an allocation *)

Create HintDb le.

Lemma set_field_le k f m u m' n v :
  (nd <- load k ;; store k (f nd)) m = Ok (u, m') ->
  (forall nd, s nd <= v -> s (f nd) <= v) ->
  size_le n v m -> size_le n v m'.
Proof.
  intros H Hf [Hb Hv].
  apply bind_ok in H as (nd & m1 & Hl & H). cbv beta in H.
  apply load_ok in Hl as [Hk ->]. unfold store in H. rewrite Hk in H.
  inversion H; subst; clear H. split; [exact Hb|]. cbn. intros x.
  rewrite lookup_insert. case_decide.
  - intros [= <-]. subst k. apply Hf. exact (Hv nd Hk).
  - apply Hv.
Qed.

Lemma set_prev_le k w m u m' n v :
  set_prev k w m = Ok (u, m') -> size_le n v m -> size_le n v m'.
Proof. intros H. exact (set_field_le k _ m u m' n v H (fun _ x => x)). Qed.

Lemma set_next_le k w m u m' n v :
  set_next k w m = Ok (u, m') -> size_le n v m -> size_le n v m'.
Proof. intros H. exact (set_field_le k _ m u m' n v H (fun _ x => x)). Qed.

Lemma set_s_le k w m u m' n v :
  set_s k w m = Ok (u, m') -> w <= v -> size_le n v m -> size_le n v m'.
Proof.
  intros H Hw. exact (set_field_le k _ m u m' n v H (fun _ _ => Hw)).
Qed.

Lemma set_active_le w m u m' n v :
  set_active w m = Ok (u, m') -> size_le n v m -> size_le n v m'.
Proof.
  unfold set_active. intros H Ha. destruct (pl m); [|discriminate].
  inversion H; subst. exact Ha.
Qed.

Lemma set_available_le w m u m' n v :
  set_available w m = Ok (u, m') -> size_le n v m -> size_le n v m'.
Proof.
  unfold set_available. intros H Ha. destruct (pl m); [|discriminate].
  inversion H; subst. exact Ha.
Qed.

Lemma create_node_le size begin m k m' n v :
  create_node size begin m = Ok (k, m') -> size_le n v m -> size_le n v m'.
Proof.
  unfold create_node. intros H [Hb Hv].
  apply bind_ok in H as (u & m1 & Ha & H). cbv beta in H.
  apply assert_ok in Ha as [_ ->].
  unfold malloc in H. inversion H; subst; clear H. split; cbn; [lia|].
  intros x. rewrite lookup_insert_ne by lia. apply Hv.
Qed.

#[local] Hint Resolve set_prev_le set_next_le set_s_le set_active_le
  set_available_le create_node_le : le.
#[local] Hint Extern 1 (_ <= _) => lia : le.

Ltac le_step :=
  match goal with
  | Ha : size_le ?n ?v ?m, H : _ ?m = Ok (_, ?m') |- _ =>
      assert (size_le n v m') by (eauto 3 with le); clear H
  end.

Ltac le_run :=
  repeat first [run_step | walk_same | load_step | le_step | run_case];
  try assumption.

Lemma add_active_le node m u m' n v :
  add_active node m = Ok (u, m') -> size_le n v m -> size_le n v m'.
Proof. unfold add_active. intros H Ha. le_run. Qed.

Lemma same_size_available_le node m u m' n v :
  same_size_available node m = Ok (u, m') -> size_le n v m ->
  size_le n v m'.
Proof. unfold same_size_available. intros H Ha. le_run. Qed.

Lemma more_size_available_le node size m u m' n v :
  more_size_available node size m = Ok (u, m') -> size <= v ->
  size_le n v m -> size_le n v m'.
Proof. unfold more_size_available. intros H Hs Ha. le_run. Qed.

#[local] Hint Resolve add_active_le same_size_available_le
  more_size_available_le : le.

Lemma pool_alloc_walk_le fuel size node m r m' n v :
  pool_alloc_walk fuel size node m = Ok (r, m') -> size <= v ->
  size_le n v m -> size_le n v m'.
Proof.
  intros H Hs. revert node m H.
  induction fuel as [|fuel IH]; intros node m H Ha;
    destruct node as [k|]; cbn in H; le_run.
Qed.

#[local] Hint Resolve pool_alloc_walk_le : le.

Lemma pool_alloc_le size m r m' n v :
  pool_alloc size m = Ok (r, m') -> size <= v ->
  size_le n v m -> size_le n v m'.
Proof. unfold pool_alloc. intros H Hs Ha. le_run. Qed.

(** ** The copy loop stays inside the buffer *)

Lemma buf_write_heap o b m u m' :
  buf_write o b m = Ok (u, m') -> heap m' = heap m.
Proof.
  unfold buf_write. intros H. destruct (pl m); [|discriminate].
  destruct (_ && _); [|discriminate]. inversion H; subst. reflexivity.
Qed.

Lemma copy_walk_fault cap fuel node dst i m e :
  copy_walk fuel node dst i m = Err e ->
  tidy cap m -> buffer_has (sized cap) m -> cap <= INT_MAX ->
  0 <= dst -> (forall nd, heap m !! node = Some nd -> dst + s nd <= cap) ->
  0 <= i ->
  benign e.
Proof.
  intros H Hp Hb Hmax Hdst. revert i m H Hp Hb.
  induction fuel as [|fuel IH]; intros i m H Hp Hb Hroom Hi; cbn in H.
  { inversion H. right. reflexivity. }
  apply bind_err in H as [H | (nd & m1 & Hl & H)];
    [apply load_err in H; left; exact H|].
  cbv beta in H. apply load_ok in Hl as [Hn ->].
  destruct (Hp node nd Hn) as (_ & ? & ? & ?). pose proof (Hroom nd Hn).
  destruct (i <? s nd) eqn:E; [|discriminate H]. apply Z.ltb_lt in E.
  apply bind_err in H as [H | (b & m1 & Hr & H)].
  { exfalso. apply (buf_read_err _ _ _ _ H Hb). lia. }
  cbv beta in H. apply buf_read_ok in Hr as ->.
  apply bind_err in H as [H | (u & m1 & Hw & H)].
  { exfalso. apply (buf_write_err _ _ _ _ _ H Hb). lia. }
  cbv beta in H.
  apply bind_err in H as [H | (i' & m2 & Hrange & H)].
  { exfalso. apply (int_of_err _ _ _ H). unfold INT_MIN, INT_MAX in *. lia. }
  cbv beta in H. apply int_of_ok in Hrange as [-> ->].
  apply (IH _ _ H).
  - exact (buf_write_tidy _ _ _ _ _ _ Hw Hp).
  - exact (buf_write_keeps _ _ _ _ _ _ (sized_insert cap) Hw Hb).
  - rewrite (buf_write_heap _ _ _ _ _ Hw). exact Hroom.
  - lia.
Qed.

(** ** Resizing *)

Lemma pool_realloc_fault cap addr size m e :
  pool_realloc addr size m = Err e ->
  tidy cap m -> buffer_has (sized cap) m -> cap <= INT_MAX ->
  0 < size <= INT_MAX ->
  benign e.
Proof.
  unfold pool_realloc. intros H Hp Hb Hmax [Hs Hsmax].
  apply bind_err in H as [H | (u & m1 & Ha & H)]; [fault_run|].
  cbv beta in H. apply assert_ok in Ha as [_ ->].
  apply bind_err in H as [H | (found & m1 & Hf & H)]; [fault_run|].
  cbv beta in H. destruct found as [node|]; [|discriminate H].
  apply find_active_found in Hf as (-> & nd & Hn & Hst).
  rewrite (bind_run _ _ _ _ _ (load_run _ _ _ Hn)) in H.
  destruct (Hp node nd Hn) as (Hbrk & ? & ? & ?).
  assert (Hanchor : start_if node (start nd) m).
  { split; [exact Hbrk|]. intros y Hy. rewrite Hn in Hy.
    injection Hy as <-. reflexivity. }
  destruct (s nd =? size) eqn:E1; [discriminate H|].
  destruct (s nd >? size) eqn:E2; [fault_run|].
  rewrite Z.gtb_ltb in E2. apply Z.ltb_ge in E2. apply Z.eqb_neq in E1.
  apply bind_err in H as [H | (more & m1 & Hi & H)]; [fault_run|].
  cbv beta in H. apply int_of_ok in Hi as [-> ->].
  apply bind_err in H as [H | (grabbed & m1 & Hg & H)]; [fault_run|].
  cbv beta in H. destruct grabbed as [g|]; [fault_run|].
  apply find_available_none in Hg as ->.
  apply bind_err in H as [H | (dst & m2 & Halloc & H)]; [fault_run|].
  cbv beta in H. destruct dst as [dst|]; [|discriminate H].
  pose proof (pool_alloc_tidy _ _ _ _ _ Halloc Hp) as Hq.
  pose proof (pool_alloc_keeps _ _ _ _ _ Halloc Hb) as Hb2.
  destruct (pool_alloc_shape _ _ _ _ Halloc) as (k & x & Hk & Hxs & Hxl).
  destruct (Hq k x Hk) as (_ & ? & ? & ?).
  assert (Hle : size_le node size m2).
  { eapply pool_alloc_le; [exact Halloc | lia |]. split; [exact Hbrk|].
    intros y Hy. rewrite Hn in Hy. injection Hy as <-. lia. }
  apply bind_err in H as [H | (nd1 & m3 & Hl & H)];
    [apply load_err in H; left; exact H|].
  cbv beta in H. apply load_ok in Hl as [Hn1 ->].
  apply bind_err in H as [H | (v & m4 & Hcopy & H)].
  - eapply copy_walk_fault;
      [exact H | exact Hq | exact Hb2 | exact Hmax | lia | | lia].
    intros y Hy. pose proof (proj2 Hle y Hy). lia.
  - cbv beta in H. pose proof (copy_walk_tidy _ _ _ _ _ _ _ _ Hcopy Hq).
    apply bind_err in H as [H | (b & m5 & _ & H)]; [|discriminate H].
    eapply pool_free_fault; eassumption.
Qed.

(** ** What the copy loop copies *)

Lemma with_buffer_twice hb hb' m :
  with_buffer hb' (with_buffer hb m) = with_buffer hb' m.
Proof. unfold with_buffer. cbn. destruct (pl m); reflexivity. Qed.

Lemma with_buffer_same p m : pl m = Some p -> with_buffer (h p) m = m.
Proof.
  unfold with_buffer. destruct m as [q hp b]. cbn. intros ->.
  destruct p. reflexivity.
Qed.

Lemma buf_read_run o b hb m :
  is_Some (pl m) -> 0 <= o -> hb !! Z.to_nat o = Some b ->
  buf_read o (with_buffer hb m) = Ok (b, with_buffer hb m).
Proof.
  intros [p Hp] Ho Hb. unfold buf_read, bind, get_pool, with_buffer. cbn.
  rewrite Hp. cbn. apply Z.ltb_ge in Ho. rewrite Ho, Hb. reflexivity.
Qed.

Lemma buf_write_run o b hb m :
  is_Some (pl m) -> 0 <= o < Z.of_nat (length hb) ->
  buf_write o b (with_buffer hb m)
  = Ok (tt, with_buffer (<[Z.to_nat o := b]> hb) m).
Proof.
  intros [p Hp] [H0 H1]. unfold buf_write, with_buffer. cbn.
  rewrite Hp. cbn. apply Z.leb_le in H0. apply Z.ltb_lt in H1.
  rewrite H0, H1. reflexivity.
Qed.

Section CopyLoop.

Variables (node : nat) (nd : llnode) (dst : Z) (m : mem).
Hypothesis Hnode : heap m !! node = Some nd.
Hypothesis Hpool : is_Some (pl m).
Hypothesis Hsrc : 0 <= start nd.
Hypothesis Hdst : 0 <= dst.
Hypothesis Hrange : s nd <= INT_MAX.
Hypothesis Hapart : dst <= start nd \/ start nd + s nd <= dst.

(** The loop from index [i] on, with [k] bytes to go. *)
Lemma copy_walk_from k : forall i hb,
  Z.of_nat k = s nd - i -> 0 <= i ->
  start nd + s nd <= Z.of_nat (length hb) ->
  dst + s nd <= Z.of_nat (length hb) ->
  exists hb',
    copy_walk (S k) node dst i (with_buffer hb m)
    = Ok (tt, with_buffer hb' m) /\
    length hb' = length hb /\
    (forall j, i <= j < s nd ->
               hb' !! Z.to_nat (dst + j) = hb !! Z.to_nat (start nd + j)) /\
    (forall q : nat, Z.of_nat q < dst + i \/ dst + s nd <= Z.of_nat q ->
                     hb' !! q = hb !! q).
Proof.
  induction k as [|k IH]; intros i hb Hk Hi Hs Hd.
  - exists hb. cbn [copy_walk].
    rewrite (bind_run _ _ _ _ _ (load_run node (with_buffer hb m) nd Hnode)).
    replace (i <? s nd) with false by (symmetry; apply Z.ltb_ge; lia).
    repeat split; try reflexivity. intros j Hj. lia.
  - assert (Hlt : i < s nd) by lia.
    destruct (lookup_lt_is_Some_2 hb (Z.to_nat (start nd + i)) ltac:(lia))
      as [b Hb].
    destruct (IH (i + 1) (<[Z.to_nat (dst + i) := b]> hb))
      as (hb' & Hrun & Hlen & Hcopied & Hrest);
      try rewrite length_insert; try lia.
    exists hb'. split; [|split; [|split]].
    + cbn [copy_walk].
      rewrite (bind_run _ _ _ _ _
                 (load_run node (with_buffer hb m) nd Hnode)).
      replace (i <? s nd) with true by (symmetry; apply Z.ltb_lt; lia).
      rewrite (bind_run _ _ _ _ _
                 (buf_read_run (start nd + i) b hb m Hpool ltac:(lia) Hb)).
      rewrite (bind_run _ _ _ _ _
                 (buf_write_run (dst + i) b hb m Hpool ltac:(lia))).
      rewrite (bind_run _ _ _ _ _
                 (int_of_run (i + 1) _
                    ltac:(unfold INT_MIN, INT_MAX in *; lia))).
      exact Hrun.
    + rewrite Hlen. apply length_insert.
    + intros j Hj. destruct (Z.eq_dec j i) as [->|Hne].
      * rewrite Hrest by lia.
        rewrite list_lookup_insert_eq by lia. symmetry. exact Hb.
      * rewrite Hcopied by lia.
        apply list_lookup_insert_ne. lia.
    + intros q Hq. rewrite Hrest by lia.
      apply list_lookup_insert_ne. lia.
Qed.

End CopyLoop.

(** X19: the copy loop of [pool_realloc] copies exactly the [node->s]
    bytes of the block to the destination, byte for byte, and leaves every
    other byte of the buffer and every list node as it was, provided both
    ranges lie inside the buffer and the destination does not begin inside
    the block, behind its start. *)
Theorem copy_walk_copies node nd dst p m :
  heap m !! node = Some nd ->
  pl m = Some p ->
  0 <= start nd -> 0 <= dst -> 0 <= s nd <= INT_MAX ->
  dst <= start nd \/ start nd + s nd <= dst ->
  start nd + s nd <= Z.of_nat (length (h p)) ->
  dst + s nd <= Z.of_nat (length (h p)) ->
  exists hb',
    copy_walk (S (Z.to_nat (s nd))) node dst 0 m
    = Ok (tt, with_buffer hb' m) /\
    length hb' = length (h p) /\
    (forall j, 0 <= j < s nd ->
               hb' !! Z.to_nat (dst + j) = h p !! Z.to_nat (start nd + j)) /\
    (forall q : nat, Z.of_nat q < dst \/ dst + s nd <= Z.of_nat q ->
                     hb' !! q = h p !! q).
Proof.
  intros Hn Hp Hsrc Hdst [Hs0 Hrange] Hapart Hs Hd.
  destruct (copy_walk_from node nd dst m Hn (ex_intro _ p Hp) Hsrc Hdst
              Hrange Hapart (Z.to_nat (s nd)) 0 (h p))
    as (hb' & Hrun & Hlen & Hcopied & Hrest); try lia.
  exists hb'. rewrite (with_buffer_same p m Hp) in Hrun.
  repeat split; try assumption.
  intros q Hq. apply Hrest. lia.
Qed.

Lemma copy_walk_copies_witness :
  heap two_written !! O = Some first_block /\
  pl two_written = Some written_pool /\
  exists hb',
    copy_walk (S (Z.to_nat (s first_block))) O 2 0 two_written
    = Ok (tt, with_buffer hb' two_written) /\
    length hb' = length (h written_pool) /\
    (forall j, 0 <= j < s first_block ->
               hb' !! Z.to_nat (2 + j)
               = h written_pool !! Z.to_nat (start first_block + j)) /\
    (forall q : nat, Z.of_nat q < 2 \/ 2 + s first_block <= Z.of_nat q ->
                     hb' !! q = h written_pool !! q).
Proof.
  assert (Hn : heap two_written !! O = Some first_block)
    by (vm_compute; reflexivity).
  assert (Hp : pl two_written = Some written_pool)
    by (vm_compute; reflexivity).
  assert (H1 : 0 <= start first_block) by (cbn; lia).
  assert (H2 : 0 <= 2) by lia.
  assert (H3 : 0 <= s first_block <= INT_MAX) by (cbn; unfold INT_MAX; lia).
  assert (H4 : 2 <= start first_block
               \/ start first_block + s first_block <= 2)
    by (right; cbn; lia).
  assert (H5 : start first_block + s first_block
               <= Z.of_nat (length (h written_pool))) by (cbn; lia).
  assert (H6 : 2 + s first_block <= Z.of_nat (length (h written_pool)))
    by (cbn; lia).
  exact (conj Hn (conj Hp
           (copy_walk_copies O first_block 2 written_pool two_written
              Hn Hp H1 H2 H3 H4 H5 H6))).
Defined.

(** * Properties of the pool *)

(** ** Inside the buffer *)

Lemma pool_create_sized size u m :
  pool_create size boot = Ok (u, m) -> buffer_has (sized size) m.
Proof.
  unfold pool_create. intros H.
  apply bind_ok in H as (v & m1 & Ha & H). cbv beta in H.
  apply assert_ok in Ha as [Hsz ->]. apply Z.ltb_lt in Hsz.
  apply bind_ok in H as (node & m1 & _ & H). cbv beta in H.
  inversion H; subst; clear H. eexists. split; [reflexivity|]. cbn.
  unfold sized. rewrite length_replicate. lia.
Qed.

Lemma session_sized size cs m :
  session size cs = Ok (tt, m) -> buffer_has (sized size) m.
Proof.
  unfold session. intros H.
  apply bind_ok in H as (u & m1 & Hc & H). cbv beta in H.
  exact (do_calls_keeps _ _ _ _ _ (sized_insert size) H
           (pool_create_sized _ _ _ Hc)).
Qed.

Lemma session_capacity size cs m :
  session size cs = Ok (tt, m) -> capacity m = Some size.
Proof.
  intros H. destruct (session_sized _ _ _ H) as (p & Hp & Hl).
  unfold capacity. rewrite Hp. cbn. rewrite Hl. reflexivity.
Qed.

Lemma session_tidy size cs m : session size cs = Ok (tt, m) -> tidy size m.
Proof.
  unfold session. intros H.
  apply bind_ok in H as (u & m1 & Hc & H). cbv beta in H.
  exact (do_calls_tidy _ _ _ _ _ H (pool_create_tidy _ _ _ Hc)).
Qed.

(** X1: after [pool_create(size)] and any calls that returned, the pool is
    live, its buffer still has [size] bytes, and every live list node
    describes a non-empty range inside the buffer. *)
Theorem session_stays_inside size cs m :
  session size cs = Ok (tt, m) -> capacity m = Some size /\ tidy size m.
Proof.
  intros H. split; [exact (session_capacity _ _ _ H)|].
  exact (session_tidy _ _ _ H).
Qed.

Lemma session_stays_inside_witness :
  session 10 second_released = Ok (tt, stale_head) /\
  capacity stale_head = Some 10 /\ tidy 10 stale_head.
Proof.
  assert (Hs : session 10 second_released = Ok (tt, stale_head))
    by (vm_compute; reflexivity).
  exact (conj Hs (session_stays_inside 10 second_released stale_head Hs)).
Defined.

(** X2: every block that [pool_print_active] or [pool_print_available]
    lists after such a session lies inside the buffer and is not empty. *)
Theorem listings_stay_inside size cs m l m' :
  session size cs = Ok (tt, m) ->
  pool_print_active m = Ok (l, m') \/ pool_print_available m = Ok (l, m') ->
  Forall (block_inside size) l.
Proof.
  intros Hs Hl. pose proof (session_tidy _ _ _ Hs) as Hp.
  unfold pool_print_active, pool_print_available in Hl.
  destruct Hl as [H|H];
    apply bind_ok in H as (p & m1 & Hg & H); cbv beta in H;
    apply get_pool_ok in Hg as [_ ->];
    apply bind_ok in H as (fuel & m1 & Hf & H); cbv beta in H;
    apply steps_ok in Hf as [_ ->];
    exact (print_walk_inside _ _ _ _ _ _ Hp H).
Qed.

Lemma listings_stay_inside_witness :
  session 10 (second_released ++ [Alloc 2]) = Ok (tt, split_again) /\
  (pool_print_active split_again = Ok ([(0, 3); (3, 2); (5, 5)], split_again)
   \/ pool_print_available split_again
      = Ok ([(0, 3); (3, 2); (5, 5)], split_again)) /\
  Forall (block_inside 10) [(0, 3); (3, 2); (5, 5)].
Proof.
  assert (Hs : session 10 (second_released ++ [Alloc 2]) = Ok (tt, split_again))
    by (vm_compute; reflexivity).
  assert (Hl : pool_print_active split_again
               = Ok ([(0, 3); (3, 2); (5, 5)], split_again)
               \/ pool_print_available split_again
                  = Ok ([(0, 3); (3, 2); (5, 5)], split_again))
    by (left; vm_compute; reflexivity).
  exact (conj Hs (conj Hl (listings_stay_inside _ _ _ _ _ Hs Hl))).
Defined.

(** X3: the range that [pool_alloc] returns after such a session lies
    inside the buffer: it starts at or after offset 0 and its [size] bytes
    end at or before the end of the buffer. *)
Theorem pool_alloc_stays_inside size cs m n o m' :
  session size cs = Ok (tt, m) ->
  pool_alloc n m = Ok (Some o, m') ->
  0 <= o /\ o + n <= size.
Proof.
  intros Hs H. pose proof (session_tidy _ _ _ Hs) as Hp.
  pose proof (pool_alloc_tidy _ _ _ _ _ H Hp) as Hp'.
  destruct (pool_alloc_shape _ _ _ _ H) as (k & nd & Hk & <- & <-).
  destruct (Hp' k nd Hk) as (_ & ? & ? & ?). split; assumption.
Qed.

Lemma pool_alloc_stays_inside_witness :
  session 10 second_released = Ok (tt, stale_head) /\
  pool_alloc 7 stale_head = Ok (Some 3, doubly_listed) /\
  0 <= 3 /\ 3 + 7 <= 10.
Proof.
  assert (Hs : session 10 second_released = Ok (tt, stale_head))
    by (vm_compute; reflexivity).
  assert (Ha : pool_alloc 7 stale_head = Ok (Some 3, doubly_listed))
    by (vm_compute; reflexivity).
  exact (conj Hs (conj Ha (pool_alloc_stays_inside _ _ _ _ _ _ Hs Ha))).
Defined.

(** X4: the same for [pool_realloc]: whichever way it serves the request
    (size unchanged, shrunk, grown in place, or moved), the range it
    returns lies inside the buffer. *)
Theorem pool_realloc_stays_inside size cs m addr n o m' :
  session size cs = Ok (tt, m) ->
  pool_realloc addr n m = Ok (Some o, m') ->
  0 <= o /\ o + n <= size.
Proof.
  intros Hs H. pose proof (session_tidy _ _ _ Hs) as Hp.
  pose proof (pool_realloc_tidy _ _ _ _ _ _ H Hp) as Hp'.
  unfold pool_realloc in H.
  apply bind_ok in H as (u & m1 & Ha & H). cbv beta in H.
  apply assert_ok in Ha as [_ ->].
  apply bind_ok in H as (found & m1 & Hf & H). cbv beta in H.
  destruct found as [node|]; [|apply ret_ok in H as [H _]; discriminate H].
  apply find_active_found in Hf as (-> & nd & Hn & Hst).
  rewrite (bind_run _ _ _ _ _ (load_run _ _ _ Hn)) in H.
  (* every branch but the move ends with [set_s node n], a load and a return *)
  assert (Hend : forall ma mb,
            tidy size mb ->
            (set_s node n ;; nd' <- load node ;; ret (Some (start nd'))) ma
            = Ok (Some o, mb) -> 0 <= o /\ o + n <= size).
  { intros ma mb Hq He.
    apply bind_ok in He as (v & mc & Hset & He). cbv beta in He.
    apply bind_ok in He as (nd' & md & Hl & He). cbv beta in He.
    apply load_ok in Hl as [Hk ->]. apply ret_ok in He as [He ->].
    injection He as ->.
    destruct (set_s_sets _ _ _ _ _ Hset) as (x & Hx & Hsx).
    rewrite Hk in Hx. injection Hx as <-.
    destruct (Hq node nd' Hk) as (_ & ? & ? & ?). split; lia. }
  destruct (s nd =? n) eqn:E1.
  { apply ret_ok in H as [H ->]. injection H as ->.
    apply Z.eqb_eq in E1. destruct (Hp node nd Hn) as (_ & ? & ? & ?).
    split; lia. }
  destruct (s nd >? n) eqn:E2.
  { apply bind_ok in H as (rest & m1 & _ & H). cbv beta in H.
    apply bind_ok in H as (na & m2 & _ & H). cbv beta in H.
    apply bind_ok in H as (v & m3 & _ & H). cbv beta in H.
    exact (Hend _ _ Hp' H). }
  apply bind_ok in H as (more & m1 & Hi & H). cbv beta in H.
  apply int_of_ok in Hi as [-> ->].
  apply bind_ok in H as (grabbed & m1 & Hg & H). cbv beta in H.
  destruct grabbed as [g|].
  - apply bind_ok in H as (v & m2 & _ & H). cbv beta in H.
    exact (Hend _ _ Hp' H).
  - apply find_available_none in Hg as ->.
    apply bind_ok in H as (dst & m2 & Halloc & H). cbv beta in H.
    destruct dst as [dst|]; [|apply ret_ok in H as [H _]; discriminate H].
    apply bind_ok in H as (nd1 & m3 & _ & H). cbv beta in H.
    apply bind_ok in H as (v & m4 & _ & H). cbv beta in H.
    apply bind_ok in H as (b & m5 & _ & H). cbv beta in H.
    apply ret_ok in H as [H _]. injection H as ->.
    pose proof (pool_alloc_tidy _ _ _ _ _ Halloc Hp) as Hq.
    destruct (pool_alloc_shape _ _ _ _ Halloc) as (k & x & Hk & <- & <-).
    destruct (Hq k x Hk) as (_ & ? & ? & ?). split; assumption.
Qed.

Lemma pool_realloc_stays_inside_witness :
  session 10 hemmed_in = Ok (tt, crowded) /\
  pool_realloc 3 2 crowded = Ok (Some 1, moved) /\
  0 <= 1 /\ 1 + 2 <= 10.
Proof.
  assert (Hs : session 10 hemmed_in = Ok (tt, crowded))
    by (vm_compute; reflexivity).
  assert (Hr : pool_realloc 3 2 crowded = Ok (Some 1, moved))
    by (vm_compute; reflexivity).
  exact (conj Hs (conj Hr (pool_realloc_stays_inside _ _ _ _ _ _ _ Hs Hr))).
Defined.

(** ** What a call leaves alone *)

Lemma buffer_has_eq b m : buffer_has (eq b) m -> buffer m = Some b.
Proof. intros (p & Hp & ->). unfold buffer. rewrite Hp. reflexivity. Qed.

(** X6: [pool_alloc] never writes to the buffer: whether it succeeds or
    not, the bytes are what they were. *)
Theorem pool_alloc_keeps_buffer size m r m' :
  pool_alloc size m = Ok (r, m') -> buffer m' = buffer m.
Proof.
  intros H. destruct (pl m) as [p|] eqn:Hp.
  - assert (Hb : buffer_has (eq (h p)) m) by (exists p; auto).
    rewrite (buffer_has_eq _ _ (pool_alloc_keeps _ _ _ _ _ H Hb)).
    unfold buffer. rewrite Hp. reflexivity.
  - unfold pool_alloc in H.
    apply bind_ok in H as (u & m1 & Ha & H). cbv beta in H.
    apply assert_ok in Ha as [_ ->].
    apply bind_ok in H as (q & m1 & Hg & _).
    apply get_pool_ok in Hg as [Hg _]. congruence.
Qed.

Lemma pool_alloc_keeps_buffer_witness :
  pool_alloc 7 stale_head = Ok (Some 3, doubly_listed) /\
  buffer doubly_listed = buffer stale_head.
Proof.
  assert (Ha : pool_alloc 7 stale_head = Ok (Some 3, doubly_listed))
    by (vm_compute; reflexivity).
  exact (conj Ha (pool_alloc_keeps_buffer _ _ _ _ Ha)).
Defined.

(** X7: [pool_free] never writes to the buffer either: the bytes of a
    released block stay as the caller left them. *)
Theorem pool_free_keeps_buffer addr m r m' :
  pool_free addr m = Ok (r, m') -> buffer m' = buffer m.
Proof.
  intros H. destruct (pl m) as [p|] eqn:Hp.
  - assert (Hb : buffer_has (eq (h p)) m) by (exists p; auto).
    rewrite (buffer_has_eq _ _ (pool_free_keeps _ _ _ _ _ H Hb)).
    unfold buffer. rewrite Hp. reflexivity.
  - unfold pool_free in H.
    apply bind_ok in H as (q & m1 & Hg & _).
    apply get_pool_ok in Hg as [Hg _]. congruence.
Qed.

Lemma pool_free_keeps_buffer_witness :
  pool_free 0 stale_head = Ok (true, drained) /\
  buffer drained = buffer stale_head.
Proof.
  assert (Ha : pool_free 0 stale_head = Ok (true, drained))
    by (vm_compute; reflexivity).
  exact (conj Ha (pool_free_keeps_buffer _ _ _ _ Ha)).
Defined.

(** X8: a list node never moves: through any call after which it is
    still live, a node keeps the start offset it was created with. *)
Theorem node_never_moves size cs m c m' n nd nd' :
  session size cs = Ok (tt, m) ->
  do_call c m = Ok (tt, m') ->
  heap m !! n = Some nd ->
  heap m' !! n = Some nd' ->
  start nd' = start nd.
Proof.
  intros Hs Hc Hn Hn'. pose proof (session_tidy _ _ _ Hs) as Hp.
  assert (Ha : start_if n (start nd) m).
  { split; [exact (proj1 (Hp n nd Hn))|].
    intros x Hx. rewrite Hn in Hx. injection Hx as <-. reflexivity. }
  exact (proj2 (do_call_stay _ _ _ _ _ _ Hc Ha) nd' Hn').
Qed.

Lemma node_never_moves_witness :
  session 10 second_released = Ok (tt, stale_head) /\
  do_call (Realloc 0 5) stale_head = Ok (tt, grown) /\
  heap stale_head !! O
    = Some {| s := 3; start := 0; prev := None; next := None |} /\
  heap grown !! O
    = Some {| s := 5; start := 0; prev := None; next := Some 3%nat |} /\
  start {| s := 5; start := 0; prev := None; next := Some 3%nat |}
    = start {| s := 3; start := 0; prev := None; next := None |}.
Proof.
  assert (Hs : session 10 second_released = Ok (tt, stale_head))
    by (vm_compute; reflexivity).
  assert (Hc : do_call (Realloc 0 5) stale_head = Ok (tt, grown))
    by (vm_compute; reflexivity).
  assert (H1 : heap stale_head !! O
               = Some {| s := 3; start := 0; prev := None; next := None |})
    by (vm_compute; reflexivity).
  assert (H2 : heap grown !! O
               = Some {| s := 5; start := 0; prev := None;
                         next := Some 3%nat |})
    by (vm_compute; reflexivity).
  exact (conj Hs (conj Hc (conj H1 (conj H2
           (node_never_moves _ _ _ _ _ _ _ _ Hs Hc H1 H2))))).
Defined.

(** ** Requests that cannot be served *)

Lemma find_active_walk_absent fuel addr node m la :
  print_walk fuel node m = Ok (la, m) ->
  block_at addr la = None ->
  find_active_walk fuel addr node m = Ok (None, m).
Proof.
  revert node la. induction fuel as [|fuel IH]; intros node la Hw Hb;
    destruct node as [k|]; cbn in Hw; try discriminate Hw;
    try reflexivity.
  apply bind_ok in Hw as (nd & m1 & Hl & Hw). cbv beta in Hw.
  apply load_ok in Hl as [Hn ->].
  apply bind_ok in Hw as (rest & m2 & Hrest & Hw). cbv beta in Hw.
  pose proof (print_walk_same _ _ _ _ _ Hrest) as ->.
  apply ret_ok in Hw as [-> _].
  cbn [find_active_walk]. rewrite (bind_run _ _ _ _ _ (load_run _ _ _ Hn)).
  unfold block_at in Hb. cbn [List.find fst] in Hb.
  destruct (start nd =? addr); [discriminate Hb|].
  exact (IH _ _ Hrest Hb).
Qed.

Lemma pool_free_walk_absent fuel addr node m la :
  print_walk fuel node m = Ok (la, m) ->
  block_at addr la = None ->
  pool_free_walk fuel addr node m = Ok (false, m).
Proof.
  revert node la. induction fuel as [|fuel IH]; intros node la Hw Hb;
    destruct node as [k|]; cbn in Hw; try discriminate Hw;
    try reflexivity.
  apply bind_ok in Hw as (nd & m1 & Hl & Hw). cbv beta in Hw.
  apply load_ok in Hl as [Hn ->].
  apply bind_ok in Hw as (rest & m2 & Hrest & Hw). cbv beta in Hw.
  pose proof (print_walk_same _ _ _ _ _ Hrest) as ->.
  apply ret_ok in Hw as [-> _].
  cbn [pool_free_walk]. rewrite (bind_run _ _ _ _ _ (load_run _ _ _ Hn)).
  unfold block_at in Hb. cbn [List.find fst] in Hb.
  destruct (start nd =? addr); [discriminate Hb|].
  exact (IH _ _ Hrest Hb).
Qed.

(** Reading a listing apart: the pool is live and the walk from the head
    ran with the fuel of the state. *)
Lemma pool_print_active_walk m la :
  pool_print_active m = Ok (la, m) ->
  exists p, pl m = Some p /\
            print_walk (S (size (heap m))) (active p) m = Ok (la, m).
Proof.
  unfold pool_print_active. intros H.
  apply bind_ok in H as (p & m1 & Hg & H). cbv beta in H.
  apply get_pool_ok in Hg as [Hp ->].
  apply bind_ok in H as (fuel & m1 & Hf & H). cbv beta in H.
  apply steps_ok in Hf as [-> ->]. exists p. auto.
Qed.

Lemma pool_print_available_walk m lv :
  pool_print_available m = Ok (lv, m) ->
  exists p, pl m = Some p /\
            print_walk (S (size (heap m))) (available p) m = Ok (lv, m).
Proof.
  unfold pool_print_available. intros H.
  apply bind_ok in H as (p & m1 & Hg & H). cbv beta in H.
  apply get_pool_ok in Hg as [Hp ->].
  apply bind_ok in H as (fuel & m1 & Hf & H). cbv beta in H.
  apply steps_ok in Hf as [-> ->]. exists p. auto.
Qed.

Lemma find_active_absent addr m la :
  pool_print_active m = Ok (la, m) ->
  block_at addr la = None ->
  find_active addr m = Ok (None, m).
Proof.
  intros Hw Hb. apply pool_print_active_walk in Hw as (p & Hp & Hw).
  unfold find_active.
  rewrite (bind_run _ _ _ _ _ (get_pool_run _ _ Hp)).
  unfold steps at 1. cbn [bind].
  exact (find_active_walk_absent _ _ _ _ _ Hw Hb).
Qed.

(** X13: releasing an address at which no active block starts (an address
    inside a block, a free address, an address released before) returns
    false and changes nothing. *)
Theorem pool_free_unknown_address addr m la :
  pool_print_active m = Ok (la, m) ->
  block_at addr la = None ->
  pool_free addr m = Ok (false, m).
Proof.
  intros Hw Hb. apply pool_print_active_walk in Hw as (p & Hp & Hw).
  unfold pool_free.
  rewrite (bind_run _ _ _ _ _ (get_pool_run _ _ Hp)).
  unfold steps at 1. cbn [bind].
  exact (pool_free_walk_absent _ _ _ _ _ Hw Hb).
Qed.

Lemma pool_free_unknown_address_witness :
  pool_print_active stale_head = Ok ([(0, 3)], stale_head) /\
  block_at 1 [(0, 3)] = None /\
  pool_free 1 stale_head = Ok (false, stale_head).
Proof.
  assert (Hw : pool_print_active stale_head = Ok ([(0, 3)], stale_head))
    by (vm_compute; reflexivity).
  assert (Hb : block_at 1 [(0, 3)] = None) by reflexivity.
  exact (conj Hw (conj Hb (pool_free_unknown_address 1 _ _ Hw Hb))).
Defined.

(** X15: resizing at an address at which no active block starts returns
    the null pointer and changes nothing, whatever the size asked for. *)
Theorem pool_realloc_unknown_address addr size m la :
  pool_print_active m = Ok (la, m) ->
  block_at addr la = None ->
  0 < size ->
  pool_realloc addr size m = Ok (None, m).
Proof.
  intros Hw Hb Hs. unfold pool_realloc.
  rewrite (bind_run _ _ _ _ _ (assert_run _ m (proj2 (Z.ltb_lt _ _) Hs))).
  rewrite (bind_run _ _ _ _ _ (find_active_absent _ _ _ Hw Hb)).
  reflexivity.
Qed.

Lemma pool_realloc_unknown_address_witness :
  pool_print_active stale_head = Ok ([(0, 3)], stale_head) /\
  block_at 3 [(0, 3)] = None /\
  0 < 4 /\
  pool_realloc 3 4 stale_head = Ok (None, stale_head).
Proof.
  assert (Hw : pool_print_active stale_head = Ok ([(0, 3)], stale_head))
    by (vm_compute; reflexivity).
  assert (Hb : block_at 3 [(0, 3)] = None) by reflexivity.
  assert (Hs : 0 < 4) by lia.
  exact (conj Hw (conj Hb (conj Hs
           (pool_realloc_unknown_address 3 4 _ _ Hw Hb Hs)))).
Defined.

Lemma pool_alloc_walk_no_fit fuel size node m lv :
  print_walk fuel node m = Ok (lv, m) ->
  first_fit size lv = None ->
  pool_alloc_walk fuel size node m = Ok (None, m).
Proof.
  revert node lv. induction fuel as [|fuel IH]; intros node lv Hw Hb;
    destruct node as [k|]; cbn in Hw; try discriminate Hw;
    try reflexivity.
  apply bind_ok in Hw as (nd & m1 & Hl & Hw). cbv beta in Hw.
  apply load_ok in Hl as [Hn ->].
  apply bind_ok in Hw as (rest & m2 & Hrest & Hw). cbv beta in Hw.
  pose proof (print_walk_same _ _ _ _ _ Hrest) as ->.
  apply ret_ok in Hw as [-> _].
  cbn [pool_alloc_walk]. rewrite (bind_run _ _ _ _ _ (load_run _ _ _ Hn)).
  unfold first_fit in Hb. cbn [List.find snd] in Hb.
  destruct (size <=? s nd) eqn:E; [discriminate Hb|].
  apply Z.leb_gt in E. apply Z.ltb_lt in E. rewrite E.
  exact (IH _ _ Hrest Hb).
Qed.

Lemma pool_alloc_no_fit size m lv :
  pool_print_available m = Ok (lv, m) ->
  first_fit size lv = None ->
  0 < size ->
  pool_alloc size m = Ok (None, m).
Proof.
  intros Hw Hb Hs. apply pool_print_available_walk in Hw as (p & Hp & Hw).
  unfold pool_alloc.
  rewrite (bind_run _ _ _ _ _ (assert_run _ m (proj2 (Z.ltb_lt _ _) Hs))).
  rewrite (bind_run _ _ _ _ _ (get_pool_run _ _ Hp)).
  destruct (available p) as [first|]; [|reflexivity].
  unfold steps at 1. cbn [bind].
  exact (pool_alloc_walk_no_fit _ _ _ _ _ Hw Hb).
Qed.

(** X10: when no block of the available list is long enough (the list may
    be empty, or the free bytes may be scattered over blocks that are each
    too short), [pool_alloc] returns the null pointer and changes
    nothing: it never joins or moves blocks to make room. *)
Theorem pool_alloc_without_room size m lv :
  pool_print_available m = Ok (lv, m) ->
  first_fit size lv = None ->
  0 < size ->
  pool_alloc size m = Ok (None, m).
Proof.
  intros Hw Hb Hs. apply pool_print_available_walk in Hw as (p & Hp & Hw).
  unfold pool_alloc.
  rewrite (bind_run _ _ _ _ _ (assert_run _ m (proj2 (Z.ltb_lt _ _) Hs))).
  rewrite (bind_run _ _ _ _ _ (get_pool_run _ _ Hp)).
  destruct (available p) as [first|]; [|reflexivity].
  unfold steps at 1. cbn [bind].
  exact (pool_alloc_walk_no_fit _ _ _ _ _ Hw Hb).
Qed.

Lemma pool_alloc_without_room_witness :
  pool_print_available crowded = Ok ([(1, 2); (5, 5)], crowded) /\
  first_fit 6 [(1, 2); (5, 5)] = None /\
  0 < 6 /\
  pool_alloc 6 crowded = Ok (None, crowded).
Proof.
  assert (Hw : pool_print_available crowded
               = Ok ([(1, 2); (5, 5)], crowded)) by (vm_compute; reflexivity).
  assert (Hb : first_fit 6 [(1, 2); (5, 5)] = None) by reflexivity.
  assert (Hs : 0 < 6) by lia.
  exact (conj Hw (conj Hb (conj Hs (pool_alloc_without_room 6 _ _ Hw Hb Hs)))).
Defined.

Lemma find_available_walk_nothing fuel addr size node m lv :
  print_walk fuel node m = Ok (lv, m) ->
  (forall b, block_at addr lv = Some b -> snd b < size) ->
  find_available_walk fuel addr size node m = Ok (None, m).
Proof.
  revert node lv. induction fuel as [|fuel IH]; intros node lv Hw Hb;
    destruct node as [k|]; cbn in Hw; try discriminate Hw;
    try reflexivity.
  apply bind_ok in Hw as (nd & m1 & Hl & Hw). cbv beta in Hw.
  apply load_ok in Hl as [Hn ->].
  apply bind_ok in Hw as (rest & m2 & Hrest & Hw). cbv beta in Hw.
  pose proof (print_walk_same _ _ _ _ _ Hrest) as ->.
  apply ret_ok in Hw as [-> _].
  cbn [find_available_walk].
  rewrite (bind_run _ _ _ _ _ (load_run _ _ _ Hn)).
  unfold block_at in Hb. cbn [List.find fst] in Hb.
  destruct (start nd <=? addr); [|reflexivity].
  destruct (start nd =? addr).
  - specialize (Hb _ eq_refl). cbn in Hb.
    apply Z.ltb_lt in Hb. rewrite Hb. reflexivity.
  - exact (IH _ _ Hrest Hb).
Qed.

Lemma find_available_nothing addr size m lv :
  pool_print_available m = Ok (lv, m) ->
  (forall b, block_at addr lv = Some b -> snd b < size) ->
  0 < size ->
  find_available addr size m = Ok (None, m).
Proof.
  intros Hw Hb Hs. apply pool_print_available_walk in Hw as (p & Hp & Hw).
  unfold find_available.
  rewrite (bind_run _ _ _ _ _ (assert_run _ m (proj2 (Z.ltb_lt _ _) Hs))).
  rewrite (bind_run _ _ _ _ _ (get_pool_run _ _ Hp)).
  unfold steps at 1. cbn [bind].
  exact (find_available_walk_nothing _ _ _ _ _ _ Hw Hb).
Qed.

(** X16: growing a block fails cleanly when there is no room: if the
    available block that starts right behind it (if any) is shorter than
    the bytes missing, and no available block is long enough for the new
    size, [pool_realloc] returns the null pointer and changes nothing;
    the block keeps its place, its length and its bytes. *)
Theorem pool_realloc_without_room addr size L m la lv :
  pool_print_active m = Ok (la, m) ->
  pool_print_available m = Ok (lv, m) ->
  block_at addr la = Some (addr, L) ->
  0 < L < size ->
  size <= INT_MAX ->
  (forall b, block_at (addr + L) lv = Some b -> snd b < size - L) ->
  first_fit size lv = None ->
  pool_realloc addr size m = Ok (None, m).
Proof.
  intros Ha Hv Hb HL Hmax Hbehind Hfit.
  destruct (find_active_block _ _ _ _ Ha Hb) as (n & nd & Hf & Hn & Hs & Hl).
  injection Hl as ->.
  assert (Hsize : 0 < size) by lia.
  assert (Hmore : 0 < size - s nd) by lia.
  assert (Hrange : INT_MIN <= size - s nd <= INT_MAX)
    by (unfold INT_MIN, INT_MAX in *; lia).
  unfold pool_realloc.
  rewrite (bind_run _ _ _ _ _ (assert_run _ m (proj2 (Z.ltb_lt _ _) Hsize))).
  rewrite (bind_run _ _ _ _ _ Hf).
  rewrite (bind_run _ _ _ _ _ (load_run _ _ _ Hn)).
  replace (s nd =? size) with false by (symmetry; apply Z.eqb_neq; lia).
  replace (s nd >? size) with false
    by (symmetry; rewrite Z.gtb_ltb; apply Z.ltb_ge; lia).
  rewrite (bind_run _ _ _ _ _ (int_of_run _ m Hrange)).
  rewrite (bind_run _ _ _ _ _
             (find_available_nothing _ _ _ _ Hv Hbehind Hmore)).
  rewrite (bind_run _ _ _ _ _ (pool_alloc_no_fit _ _ _ Hv Hfit Hsize)).
  reflexivity.
Qed.

Lemma pool_realloc_without_room_witness :
  pool_print_active crowded = Ok ([(0, 1); (3, 1); (4, 1)], crowded) /\
  pool_print_available crowded = Ok ([(1, 2); (5, 5)], crowded) /\
  block_at 4 [(0, 1); (3, 1); (4, 1)] = Some (4, 1) /\
  0 < 1 < 7 /\
  7 <= INT_MAX /\
  (forall b, block_at (4 + 1) [(1, 2); (5, 5)] = Some b -> snd b < 7 - 1) /\
  first_fit 7 [(1, 2); (5, 5)] = None /\
  pool_realloc 4 7 crowded = Ok (None, crowded).
Proof.
  assert (Ha : pool_print_active crowded
               = Ok ([(0, 1); (3, 1); (4, 1)], crowded))
    by (vm_compute; reflexivity).
  assert (Hv : pool_print_available crowded
               = Ok ([(1, 2); (5, 5)], crowded)) by (vm_compute; reflexivity).
  assert (Hb : block_at 4 [(0, 1); (3, 1); (4, 1)] = Some (4, 1))
    by reflexivity.
  assert (HL : 0 < 1 < 7) by lia.
  assert (Hmax : 7 <= INT_MAX) by (unfold INT_MAX; lia).
  assert (Hbehind : forall b, block_at (4 + 1) [(1, 2); (5, 5)] = Some b ->
                              snd b < 7 - 1).
  { intros b Hq. vm_compute in Hq. injection Hq as <-. simpl. lia. }
  assert (Hfit : first_fit 7 [(1, 2); (5, 5)] = None) by reflexivity.
  exact (conj Ha (conj Hv (conj Hb (conj HL (conj Hmax (conj Hbehind
           (conj Hfit (pool_realloc_without_room 4 7 1 _ _ _
                         Ha Hv Hb HL Hmax Hbehind Hfit)))))))).
Defined.

(** ** Answers *)

Lemma pool_alloc_first_fit_witness :
  reachable crowded /\
  pool_print_available crowded = Ok ([(1, 2); (5, 5)], crowded) /\
  pool_alloc 3 crowded
    = Ok (Some 5, state_after 10 (hemmed_in ++ [Alloc 3])) /\
  Some 5 = option_map fst (first_fit 3 [(1, 2); (5, 5)]).
Proof.
  assert (Hv : pool_print_available crowded
               = Ok ([(1, 2); (5, 5)], crowded)) by (vm_compute; reflexivity).
  assert (Ha : pool_alloc 3 crowded
               = Ok (Some 5, state_after 10 (hemmed_in ++ [Alloc 3])))
    by (vm_compute; reflexivity).
  exact (conj crowded_reachable (conj Hv (conj Ha
           (pool_alloc_first_fit 3 _ _ _ _ crowded_reachable Hv Ha)))).
Defined.

Lemma pool_free_result_witness :
  pool_print_active stale_head = Ok ([(0, 3)], stale_head) /\
  pool_free 0 stale_head = Ok (true, drained) /\
  true = match block_at 0 [(0, 3)] with Some _ => true | None => false end.
Proof.
  assert (Hw : pool_print_active stale_head = Ok ([(0, 3)], stale_head))
    by (vm_compute; reflexivity).
  assert (Hf : pool_free 0 stale_head = Ok (true, drained))
    by (vm_compute; reflexivity).
  exact (conj Hw (conj Hf (pool_free_result 0 _ _ _ _ Hw Hf))).
Defined.

(** X11: a call that reports failure has changed nothing.  For
    [pool_alloc]: whenever it returns the null pointer, in any state, the
    lists, the nodes and the buffer are as before. *)
Theorem failed_alloc_changes_nothing size m m' :
  pool_alloc size m = Ok (None, m') -> m' = m.
Proof.
  unfold pool_alloc. intros H. frame_run; try reflexivity.
  eapply pool_alloc_walk_none; eassumption.
Qed.

Lemma failed_alloc_changes_nothing_witness :
  pool_alloc 8 stale_head = Ok (None, stale_head) /\ stale_head = stale_head.
Proof.
  assert (Ha : pool_alloc 8 stale_head = Ok (None, stale_head))
    by (vm_compute; reflexivity).
  exact (conj Ha (failed_alloc_changes_nothing 8 _ _ Ha)).
Defined.

Lemma pool_free_false_witness :
  pool_free 3 moved = Ok (false, moved) /\ moved = moved.
Proof.
  assert (Ha : pool_free 3 moved = Ok (false, moved))
    by (vm_compute; reflexivity).
  exact (conj Ha (pool_free_false 3 _ _ Ha)).
Defined.

Lemma pool_realloc_none_witness :
  pool_realloc 0 11 stale_head = Ok (None, stale_head) /\
  stale_head = stale_head.
Proof.
  assert (Ha : pool_realloc 0 11 stale_head = Ok (None, stale_head))
    by (vm_compute; reflexivity).
  exact (conj Ha (pool_realloc_none 0 11 _ _ Ha)).
Defined.



(** X5: after [pool_create(size)] with [size] at most [INT_MAX] and any
    calls that returned, a call with a positive size can only go wrong by
    following a pointer to a node that is not live or by walking a list
    that runs in a circle.  No [assert] of the source fails, no [int]
    overflows, and the buffer is never read or written outside its
    bounds, not even by the copy loop of [pool_realloc]. *)
Theorem calls_fault_only_on_pointers size cs m c e :
  session size cs = Ok (tt, m) ->
  size <= INT_MAX ->
  well_called size c ->
  do_call c m = Err e ->
  e = InvalidPointer \/ e = NoTermination.
Proof.
  intros Hs Hmax Hc H.
  pose proof (session_tidy _ _ _ Hs) as Hp.
  pose proof (session_sized _ _ _ Hs) as Hb.
  change (benign e). destruct c as [n|addr|addr n|addr b]; cbn in Hc;
    unfold do_call, poke in H.
  - apply bind_err in H as [H | (r & m1 & _ & H)]; [|discriminate H].
    exact (pool_alloc_fault _ _ _ _ H Hp Hmax Hc).
  - apply bind_err in H as [H | (r & m1 & _ & H)]; [|discriminate H].
    exact (pool_free_fault _ _ _ _ H Hp Hmax).
  - apply bind_err in H as [H | (r & m1 & _ & H)]; [|discriminate H].
    exact (pool_realloc_fault _ _ _ _ _ H Hp Hb Hmax Hc).
  - exfalso. exact (buf_write_err _ _ _ _ _ H Hb Hc).
Qed.

Lemma calls_fault_only_on_pointers_witness :
  session 10 (second_released ++ [Free 0]) = Ok (tt, drained) /\
  10 <= INT_MAX /\
  well_called 10 (Alloc 1) /\
  do_call (Alloc 1) drained = Err InvalidPointer /\
  (InvalidPointer = InvalidPointer \/ InvalidPointer = NoTermination).
Proof.
  assert (Hs : session 10 (second_released ++ [Free 0]) = Ok (tt, drained))
    by (vm_compute; reflexivity).
  assert (Hm : 10 <= INT_MAX) by (unfold INT_MAX; lia).
  assert (Hc : well_called 10 (Alloc 1)) by (cbn; lia).
  assert (He : do_call (Alloc 1) drained = Err InvalidPointer)
    by (vm_compute; reflexivity).
  exact (conj Hs (conj Hm (conj Hc (conj He
           (calls_fault_only_on_pointers _ _ _ _ _ Hs Hm Hc He))))).
Defined.

(** ** A pool that has just been created *)


